(** * mjlib persistent configuration: a model of
      [mjlib/micro/persistent_config.cc] and its properties.

    The engine ([PersistentConfig::Impl]) is embedded as state-passing
    functions over a record [Impl].  Calls that leave the engine (flash
    driver, transport writes, completion callbacks, update callbacks and
    handler entry points) are recorded, in order, in the [trace] field.
    The external collaborators the engine is built on (tokenizer, byte
    stream codec, bounded map, handler interface) are modelled next to
    it. *)

From Stdlib Require Import ZArith String Ascii Bool Lia List.
From Stdlib Require Import Strings.Byte.
Import ListNotations.
Local Open Scope Z_scope.
Local Open Scope list_scope.

(** ** Bytes and fixed-width integers *)

Module Bytes.

Definition wrap (w : Z) (v : Z) : Z := v mod 2 ^ w.

Definition Z_of_byte (b : byte) : Z := Z.of_N (Byte.to_N b).

Definition byte_of_Z (v : Z) : byte :=
  match Byte.of_N (Z.to_N (wrap 8 v)) with
  | Some b => b
  | None => x00
  end.

Lemma Z_of_byte_range (b : byte) : 0 <= Z_of_byte b < 256.
Proof.
  unfold Z_of_byte. pose proof (Byte.to_N_bounded b). lia.
Qed.

Lemma Z_of_byte_of_Z (v : Z) : Z_of_byte (byte_of_Z v) = wrap 8 v.
Proof.
  unfold byte_of_Z, Z_of_byte, wrap.
  assert (Hr : 0 <= v mod 2 ^ 8 < 256) by (apply Z.mod_pos_bound; lia).
  destruct (Byte.of_N (Z.to_N (v mod 2 ^ 8))) eqn:E.
  - apply Byte.to_of_N in E. rewrite E. lia.
  - apply Byte.of_N_None_iff in E. lia.
Qed.

Lemma byte_of_Z_of_byte (b : byte) : byte_of_Z (Z_of_byte b) = b.
Proof.
  unfold byte_of_Z, wrap.
  rewrite Z.mod_small by (pose proof (Z_of_byte_range b); lia).
  unfold Z_of_byte. rewrite N2Z.id, Byte.of_to_N. reflexivity.
Qed.

Lemma byte_of_Z_0 : byte_of_Z 0 = x00.
Proof. reflexivity. Qed.

End Bytes.

(** ** Streams *)

(** Modelled from the spec: [base::WriteStream] (mjlib/base/stream.h is
    not part of the sources).  A sink that accepts byte spans. *)
Class WriteStream (S : Type) := write : S -> list byte -> S.

(** [SizeCountingStream]: no bytes retained, only a running count. *)
Record SizeCountingStream := { size_ : Z }.

#[global] Instance SizeCountingStream_write : WriteStream SizeCountingStream :=
  fun s data => {| size_ := size_ s + Z.of_nat (length data) |}.

Definition size (s : SizeCountingStream) : Z := size_ s.

(** Modelled from the spec: [base::BufferWriteStream] over a buffer of
    [capacity] bytes (mjlib/base/buffer_stream.h is not part of the
    sources).  Bytes that do not fit in the buffer are not stored. *)
Record BufferWriteStream := {
  bw_capacity : nat;
  bw_buffer : list byte
}.

#[global] Instance BufferWriteStream_write : WriteStream BufferWriteStream :=
  fun s data =>
    {| bw_capacity := bw_capacity s;
       bw_buffer := bw_buffer s
                    ++ firstn (bw_capacity s - length (bw_buffer s)) data |}.

(** Modelled from the spec: [base::BufferReadStream], a cursor over a
    byte span.  The model keeps the unread suffix of the span. *)
Module BufferReadStream.

Definition t := list byte.

Definition remaining (s : t) : Z := Z.of_nat (length s).

(** [ignore n] advances by [n] bytes, or to the end of the span. *)
Definition ignore (n : Z) (s : t) : t := skipn (Z.to_nat n) s.

(** The bytes a [string_view (position (), n)] denotes. *)
Definition view (n : Z) (s : t) : list byte := firstn (Z.to_nat n) s.

Lemma ignore_length n s : (length (ignore n s) <= length s)%nat.
Proof. unfold ignore. rewrite length_skipn. lia. Qed.

Lemma ignore_app_exact (d r : list byte) :
  ignore (Z.of_nat (length d)) (d ++ r) = r.
Proof.
  unfold ignore. rewrite Nat2Z.id, skipn_app, skipn_all, Nat.sub_diag.
  reflexivity.
Qed.

Lemma view_app_exact (d r : list byte) :
  view (Z.of_nat (length d)) (d ++ r) = d.
Proof.
  unfold view. rewrite Nat2Z.id, firstn_app, firstn_all, Nat.sub_diag.
  simpl. apply app_nil_r.
Qed.

End BufferReadStream.

(** ** The telemetry wire format *)

(** Modelled from the spec: the byte stream codec of
    mjlib/telemetry/format.h, which is not part of the sources.  Fixed
    width integers are written least significant byte first (the spec
    leaves the byte order to the wire convention); a varint carries seven
    bits per byte, least significant group first, with the top bit set on
    every byte but the last, and is at most ten bytes long. *)
Module Format.

Import Bytes.

Definition encode_u32 (v : Z) : list byte :=
  [ byte_of_Z v; byte_of_Z (Z.shiftr v 8);
    byte_of_Z (Z.shiftr v 16); byte_of_Z (Z.shiftr v 24) ].

Fixpoint varuint_loop (n : nat) (value : Z) : list byte :=
  match n with
  | O => []
  | S n' =>
      let this_byte := Z.land value 127 in
      let value := Z.shiftr value 7 in
      if value =? 0 then [byte_of_Z this_byte]
      else byte_of_Z (Z.lor this_byte 128) :: varuint_loop n' value
  end.

Definition encode_varuint (value : Z) : list byte :=
  varuint_loop 10 (wrap 64 value).

Section Writer.
Context {S : Type} `{WriteStream S}.

(** [telemetry::WriteStream::Write (uint32_t)] *)
Definition Write_u32 (s : S) (v : Z) : S := write s (encode_u32 v).

(** [telemetry::WriteStream::WriteVaruint] *)
Definition WriteVaruint (s : S) (v : Z) : S := write s (encode_varuint v).

(** [telemetry::WriteStream::WriteString]: varint length, then bytes. *)
Definition WriteString (s : S) (data : list byte) : S :=
  write (WriteVaruint s (Z.of_nat (length data))) data.
End Writer.

(** [telemetry::ReadStream::Read<uint32_t>]: the value, or nothing when
    fewer than four bytes are left; the cursor moves past what was read. *)
Definition Read_u32 (s : BufferReadStream.t)
  : option Z * BufferReadStream.t :=
  match s with
  | b0 :: b1 :: b2 :: b3 :: r =>
      (Some (Z.lor (Z_of_byte b0)
               (Z.lor (Z.shiftl (Z_of_byte b1) 8)
                  (Z.lor (Z.shiftl (Z_of_byte b2) 16)
                     (Z.shiftl (Z_of_byte b3) 24)))), r)
  | _ => (None, [])
  end.

Fixpoint ReadVaruint_loop (n : nat) (pos result : Z) (s : BufferReadStream.t)
  : option Z * BufferReadStream.t :=
  match n with
  | O => (None, s)
  | S n' =>
      match s with
      | [] => (None, [])
      | this_byte :: s' =>
          let result :=
            Z.lor result
              (wrap 64 (Z.shiftl (Z.land (Z_of_byte this_byte) 127) pos)) in
          if Z.land (Z_of_byte this_byte) 128 =? 0 then (Some result, s')
          else ReadVaruint_loop n' (pos + 7) result s'
      end
  end.

(** [telemetry::ReadStream::ReadVaruint] *)
Definition ReadVaruint (s : BufferReadStream.t)
  : option Z * BufferReadStream.t :=
  ReadVaruint_loop 10 0 0 s.

(** *** Bit-level facts *)

Lemma land_shiftl_disjoint (a b n : Z) :
  0 <= n -> 0 <= a < 2 ^ n -> Z.land a (Z.shiftl b n) = 0.
Proof.
  intros Hn Ha. apply Z.bits_inj'. intros k Hk.
  rewrite Z.land_spec, Z.bits_0.
  destruct (Z.ltb_spec k n).
  - rewrite Z.shiftl_spec_low by lia. apply andb_false_r.
  - rewrite <- (Z.mod_small a (2 ^ n)) by lia.
    rewrite Z.mod_pow2_bits_high by lia. reflexivity.
Qed.

Lemma lor_shiftl_add (a b n : Z) :
  0 <= n -> 0 <= a < 2 ^ n -> Z.lor a (Z.shiftl b n) = a + b * 2 ^ n.
Proof.
  intros Hn Ha.
  pose proof (land_shiftl_disjoint a b n Hn Ha) as Hd.
  rewrite <- Z.lxor_lor by exact Hd.
  rewrite <- Z.add_nocarry_lxor by exact Hd.
  rewrite Z.shiftl_mul_pow2 by lia. reflexivity.
Qed.

Lemma byte_low7 (b : byte) : Z.land (Z_of_byte b) 127 = Z_of_byte b mod 128.
Proof. destruct b; reflexivity. Qed.

Lemma byte_more (b : byte) :
  (Z.land (Z_of_byte b) 128 =? 0) = (Z_of_byte b <? 128).
Proof. destruct b; reflexivity. Qed.

Lemma low7 (v : Z) : Z.land v 127 = v mod 128.
Proof. change 127 with (Z.ones 7). rewrite Z.land_ones by lia. reflexivity. Qed.

Lemma set_more (x : Z) : 0 <= x < 128 -> Z.lor x 128 = x + 128.
Proof.
  intros Hx. change 128 with (Z.shiftl 1 7) at 1.
  rewrite lor_shiftl_add by (simpl; lia). simpl. lia.
Qed.

(** *** Round trips *)

Lemma Read_u32_encode (v : Z) (r : list byte) :
  Read_u32 (encode_u32 v ++ r) = (Some (wrap 32 v), r).
Proof.
  unfold encode_u32, Read_u32. cbn [app]. f_equal. f_equal.
  rewrite !Z_of_byte_of_Z. unfold wrap.
  rewrite !Z.shiftr_div_pow2 by lia.
  assert (H0 : 0 <= v mod 2 ^ 8 < 2 ^ 8) by (apply Z.mod_pos_bound; lia).
  assert (H1 : 0 <= (v / 2 ^ 8) mod 2 ^ 8 < 2 ^ 8)
    by (apply Z.mod_pos_bound; lia).
  assert (H2 : 0 <= (v / 2 ^ 16) mod 2 ^ 8 < 2 ^ 8)
    by (apply Z.mod_pos_bound; lia).
  assert (H3 : 0 <= (v / 2 ^ 24) mod 2 ^ 8 < 2 ^ 8)
    by (apply Z.mod_pos_bound; lia).
  set (x0 := v mod 2 ^ 8) in *. set (x1 := (v / 2 ^ 8) mod 2 ^ 8) in *.
  set (x2 := (v / 2 ^ 16) mod 2 ^ 8) in *.
  set (x3 := (v / 2 ^ 24) mod 2 ^ 8) in *.
  transitivity
    (Z.lor x0 (Z.shiftl (Z.lor x1 (Z.shiftl (Z.lor x2 (Z.shiftl x3 8)) 8)) 8)).
  { rewrite !Z.shiftl_lor, !Z.shiftl_shiftl by lia. reflexivity. }
  rewrite !lor_shiftl_add by lia. subst x0 x1 x2 x3.
  change (2 ^ 8) with 256 in *. change (2 ^ 16) with 65536 in *.
  change (2 ^ 24) with 16777216 in *. change (2 ^ 32) with 4294967296.
  Z.div_mod_to_equations. lia.
Qed.

Lemma ReadVaruint_loop_encode (n : nat) :
  forall (m : nat) (value pos result : Z) (r : list byte),
    (n < m)%nat ->
    0 <= value < 2 ^ (7 * Z.of_nat (S n)) ->
    0 <= pos -> 0 <= result < 2 ^ pos ->
    result + value * 2 ^ pos < 2 ^ 64 ->
    ReadVaruint_loop m pos result (varuint_loop (S n) value ++ r)
    = (Some (result + value * 2 ^ pos), r).
Proof.
  induction n as [|n IH]; intros m value pos result r Hm Hv Hp Hr Hb;
    (destruct m as [|m]; [lia|]).
  - cbn [varuint_loop].
    rewrite Z.shiftr_div_pow2, low7 by lia. change (2 ^ 7) with 128.
    change (2 ^ (7 * Z.of_nat 1)) with 128 in Hv.
    rewrite Z.div_small, Z.mod_small by lia. cbn [Z.eqb app ReadVaruint_loop].
    rewrite byte_more, byte_low7, Z_of_byte_of_Z. unfold wrap.
    change (2 ^ 8) with 256. rewrite (Z.mod_small value 256) by lia.
    rewrite (Z.mod_small value 128) by lia.
    replace (value <? 128) with true by (symmetry; apply Z.ltb_lt; lia).
    rewrite Z.shiftl_mul_pow2 by lia.
    assert (0 <= value * 2 ^ pos) by (apply Z.mul_nonneg_nonneg; lia).
    rewrite Z.mod_small by lia.
    rewrite <- (Z.shiftl_mul_pow2 value pos) by lia.
    rewrite lor_shiftl_add by lia.
    rewrite ?Z.shiftl_mul_pow2 by lia. reflexivity.
  - assert (Hpow : 2 ^ (7 * Z.of_nat (S (S n)))
                   = 128 * 2 ^ (7 * Z.of_nat (S n))).
    { replace (7 * Z.of_nat (S (S n))) with (7 + 7 * Z.of_nat (S n)) by lia.
      rewrite Z.pow_add_r by lia. reflexivity. }
    assert (Hpp : 2 ^ (pos + 7) = 2 ^ pos * 128).
    { rewrite Z.pow_add_r by lia. reflexivity. }
    assert (Hpos : 0 < 2 ^ pos) by (apply Z.pow_pos_nonneg; lia).
    assert (Hlo : 0 <= value mod 128 < 128) by (apply Z.mod_pos_bound; lia).
    assert (Hsplit : value = 128 * (value / 128) + value mod 128)
      by (apply Z.div_mod; lia).
    assert (Hq : 0 <= value / 128) by (apply Z.div_pos; lia).
    assert (Hlop : 0 <= (value mod 128) * 2 ^ pos <= value * 2 ^ pos).
    { split; [apply Z.mul_nonneg_nonneg; lia|].
      apply Z.mul_le_mono_nonneg_r; lia. }
    remember (S n) as k eqn:Hk.
    cbn [varuint_loop].
    rewrite Z.shiftr_div_pow2, low7 by lia. change (2 ^ 7) with 128.
    destruct (Z.eqb_spec (value / 128) 0) as [Hz|Hz].
    + cbn [app ReadVaruint_loop].
      rewrite byte_more, byte_low7, Z_of_byte_of_Z. unfold wrap.
      change (2 ^ 8) with 256.
      rewrite (Z.mod_small (value mod 128) 256) by lia.
      rewrite Z.mod_mod by lia.
      replace (value mod 128 <? 128) with true
        by (symmetry; apply Z.ltb_lt; lia).
      rewrite Z.shiftl_mul_pow2 by lia.
      rewrite (Z.mod_small (value mod 128 * 2 ^ pos)) by lia.
      rewrite <- (Z.shiftl_mul_pow2 (value mod 128) pos) by lia.
      rewrite lor_shiftl_add by lia.
      rewrite ?Z.shiftl_mul_pow2 by lia.
      replace (value mod 128) with value by lia. reflexivity.
    + cbn [app ReadVaruint_loop].
      rewrite byte_more, byte_low7, Z_of_byte_of_Z, set_more by lia.
      unfold wrap. change (2 ^ 8) with 256.
      rewrite (Z.mod_small (value mod 128 + 128) 256) by lia.
      replace ((value mod 128 + 128) mod 128) with (value mod 128).
      2:{ rewrite <- (Z.mod_mod value 128) at 1 by lia.
          replace (value mod 128 + 128) with (value mod 128 + 1 * 128) by lia.
          rewrite Z.mod_add by lia. reflexivity. }
      replace (value mod 128 + 128 <? 128) with false
        by (symmetry; apply Z.ltb_ge; lia).
      rewrite Z.shiftl_mul_pow2 by lia.
      rewrite (Z.mod_small (value mod 128 * 2 ^ pos)) by lia.
      rewrite <- (Z.shiftl_mul_pow2 (value mod 128) pos) by lia.
      rewrite lor_shiftl_add by lia.
      rewrite ?Z.shiftl_mul_pow2 by lia.
      subst k. rewrite IH.
      * f_equal. f_equal. rewrite Hpp. rewrite Hsplit at 3. ring.
      * lia.
      * split; [lia|]. apply Z.div_lt_upper_bound; lia.
      * lia.
      * rewrite Hpp. nia.
      * rewrite Hpp.
        replace (value mod 128 * 2 ^ pos + value / 128 * (2 ^ pos * 128))
          with (value * 2 ^ pos) by (rewrite Hsplit at 1; ring).
        lia.
Qed.

Lemma ReadVaruint_encode (v : Z) (r : list byte) :
  0 <= v < 2 ^ 64 ->
  ReadVaruint (encode_varuint v ++ r) = (Some v, r).
Proof.
  intros Hv. unfold ReadVaruint, encode_varuint, wrap.
  rewrite Z.mod_small by lia.
  rewrite (ReadVaruint_loop_encode 9 10 v 0 0 r).
  - f_equal. f_equal. simpl. lia.
  - lia.
  - change (2 ^ (7 * Z.of_nat 10)) with (2 ^ 64 * 64). lia.
  - lia.
  - simpl. lia.
  - simpl (2 ^ 0). lia.
Qed.

Lemma ReadVaruint_zero (r : list byte) : ReadVaruint (x00 :: r) = (Some 0, r).
Proof. reflexivity. Qed.

Lemma encode_varuint_nonempty (v : Z) : encode_varuint v <> [].
Proof.
  unfold encode_varuint. cbn [varuint_loop].
  destruct (_ =? 0); discriminate.
Qed.

Lemma ReadVaruint_loop_length (n : nat) :
  forall pos result s,
    (length (snd (ReadVaruint_loop n pos result s)) <= length s)%nat.
Proof.
  induction n as [|n IH]; intros pos result s; cbn [ReadVaruint_loop].
  - simpl. lia.
  - destruct s as [|b s']; [simpl; lia|].
    destruct (_ =? 0); cbn [snd length].
    + lia.
    + specialize (IH (pos + 7)
        (Z.lor result (wrap 64 (Z.shiftl (Z.land (Z_of_byte b) 127) pos))) s').
      lia.
Qed.

Lemma ReadVaruint_loop_consumes (n : nat) :
  forall pos result s v s',
    ReadVaruint_loop n pos result s = (Some v, s') ->
    (length s' < length s)%nat.
Proof.
  induction n as [|n IH]; intros pos result s v s' E; cbn [ReadVaruint_loop] in E.
  - discriminate.
  - destruct s as [|b t]; [discriminate|].
    destruct (_ =? 0).
    + inversion E; subst. simpl. lia.
    + apply IH in E. simpl. lia.
Qed.

Lemma byte_of_Z_congr (x y : Z) :
  x mod 256 = y mod 256 -> byte_of_Z x = byte_of_Z y.
Proof.
  intros E. unfold byte_of_Z, wrap. change (2 ^ 8) with 256. rewrite E.
  reflexivity.
Qed.

Lemma encode_u32_wrap (v : Z) : encode_u32 (wrap 32 v) = encode_u32 v.
Proof.
  unfold encode_u32, wrap. rewrite !Z.shiftr_div_pow2 by lia.
  change (2 ^ 32) with 4294967296. change (2 ^ 8) with 256.
  change (2 ^ 16) with 65536. change (2 ^ 24) with 16777216.
  rewrite (byte_of_Z_congr (v mod 4294967296) v)
    by (Z.div_mod_to_equations; lia).
  rewrite (byte_of_Z_congr (v mod 4294967296 / 256) (v / 256))
    by (Z.div_mod_to_equations; lia).
  rewrite (byte_of_Z_congr (v mod 4294967296 / 65536) (v / 65536))
    by (Z.div_mod_to_equations; lia).
  rewrite (byte_of_Z_congr (v mod 4294967296 / 16777216) (v / 16777216))
    by (Z.div_mod_to_equations; lia).
  reflexivity.
Qed.

End Format.

(** ** Text helpers *)

Definition CR : ascii := ascii_of_nat 13.
Definition LF : ascii := ascii_of_nat 10.
Definition CRLF : string := String CR (String LF EmptyString).

(** "Split on the first [d]": the text before the first occurrence of [d]
    and the text after it; when [d] does not occur, the whole text and
    the empty text. *)
Fixpoint split_first (d : ascii) (s : string) : string * string :=
  match s with
  | EmptyString => (EmptyString, EmptyString)
  | String c s' =>
      if Ascii.eqb c d then (EmptyString, s')
      else let (tok, rest) := split_first d s' in (String c tok, rest)
  end.

Fixpoint occurs (d : ascii) (s : string) : bool :=
  match s with
  | EmptyString => false
  | String c s' => Ascii.eqb c d || occurs d s'
  end.

(** Modelled from the spec: [base::Tokenizer] (mjlib/base/tokenizer.h is
    not part of the sources).  [next] returns the text up to the next
    delimiter character and moves past that delimiter; [remaining] is
    the text not yet consumed. *)
Module Tokenizer.

Record t := make { position_ : string; delimiters_ : string }.

Fixpoint scan (delimiters : string) (s : string) : string * string :=
  match s with
  | EmptyString => (EmptyString, EmptyString)
  | String c s' =>
      if occurs c delimiters then (EmptyString, s')
      else let (tok, rest) := scan delimiters s' in (String c tok, rest)
  end.

Definition next (tk : t) : string * t :=
  let (tok, rest) := scan (delimiters_ tk) (position_ tk) in
  (tok, {| position_ := rest; delimiters_ := delimiters_ tk |}).

Definition remaining (tk : t) : string := position_ tk.

Lemma scan_single (d : ascii) (s : string) :
  scan (String d EmptyString) s = split_first d s.
Proof.
  induction s as [|c s IH]; [reflexivity|].
  cbn [scan split_first occurs]. rewrite orb_false_r, Ascii.eqb_sym.
  destruct (Ascii.eqb c d); [reflexivity|]. rewrite IH. reflexivity.
Qed.

End Tokenizer.

(** ** Handlers, elements, events *)

Definition error_code := Z.

(** Modelled from the spec: the capability set of
    [SerializableHandlerBase] (mjlib/micro/serializable_handler.h is not
    part of the sources), over the handler's in-memory value [V].
    - [Enumerate v name]: the error its completion callback receives;
    - [Read v field]: the immediate return value, and the error its
      completion callback receives when the callback fires;
    - [Set v key value]: the new value and the return value;
    - [WriteBinary v]: the byte spans handed to the stream, in order;
    - [ReadBinary v stream]: the new value, the number of bytes taken
      from the stream, and the return value;
    - [WriteSchema]: the byte spans of the self-description;
    - [SetDefault v]: the new value. *)
Module Handler.
Record t (V : Type) := {
  Enumerate : V -> string -> error_code;
  Read : V -> string -> Z * option error_code;
  Set_ : V -> string -> string -> V * Z;
  WriteBinary : V -> list (list byte);
  ReadBinary : V -> list byte -> V * nat * Z;
  WriteSchema : list (list byte);
  SetDefault : V -> V
}.
Arguments Enumerate {V}.
Arguments Read {V}.
Arguments Set_ {V}.
Arguments WriteBinary {V}.
Arguments ReadBinary {V}.
Arguments WriteSchema {V}.
Arguments SetDefault {V}.
End Handler.

(** A [CommandManager::Response] (stream and completion callback) is
    identified by a number. *)
Definition Response := nat.

(** What the engine does to its collaborators. *)
Inductive Event :=
| FlashUnlock
| FlashErase
| FlashLock
| FlashByte (b : byte)                       (* one byte through FlashWriteStream *)
| AsyncWrite (r : Response) (message : string) (* AsyncWrite on r.stream, completing r.callback *)
| Callback (r : Response) (ec : error_code)  (* r.callback (ec) *)
| Updated (name : string)                    (* element.updated () *)
| HandlerEnumerate (name : string)
| HandlerRead (name field : string)
| HandlerSet (name key value : string)
| HandlerReadBinary (name : string)
| HandlerSetDefault (name : string).

(** [FlashWriteStream]: every byte written goes to the flash driver. *)
Record FlashWriteStream := { fw_trace : list Event }.

#[global] Instance FlashWriteStream_write : WriteStream FlashWriteStream :=
  fun s data => {| fw_trace := fw_trace s ++ map FlashByte data |}.

(** The bytes programmed since the last erase, in program order: what the
    region starts with when it is read back. *)
Fixpoint programmed_from (acc : list byte) (t : list Event) : list byte :=
  match t with
  | [] => acc
  | FlashErase :: t' => programmed_from [] t'
  | FlashByte b :: t' => programmed_from (acc ++ [b]) t'
  | _ :: t' => programmed_from acc t'
  end.

Definition programmed (t : list Event) : list byte := programmed_from [] t.

(** Modelled from the spec: [PoolMap] (mjlib/micro/pool_map.h is not part
    of the sources), a bounded name-keyed map whose iteration order is
    insertion order.  [insert] reports [false] and changes nothing when
    the key is present; insertion past the capacity is fatal ([None]). *)
Module PoolMap.
Section PoolMap.
Context {E : Type}.

Definition t := list (string * E).

Fixpoint find (key : string) (m : t) : option E :=
  match m with
  | [] => None
  | (k, e) :: m' => if String.eqb k key then Some e else find key m'
  end.

Definition insert (max_elements : nat) (kv : string * E) (m : t)
  : option (t * bool) :=
  match find (fst kv) m with
  | Some _ => Some (m, false)
  | None =>
      if (length m <? max_elements)%nat then Some (m ++ [kv], true)
      else None
  end.

(** Assignment through the iterator [find] returns. *)
Fixpoint update (key : string) (f : E -> E) (m : t) : t :=
  match m with
  | [] => []
  | (k, e) :: m' =>
      if String.eqb k key then (k, f e) :: m'
      else (k, e) :: update key f m'
  end.

Definition keys (m : t) : list string := map fst m.

Lemma keys_update key f m : keys (update key f m) = keys m.
Proof.
  induction m as [|[k e] m IH]; [reflexivity|]. cbn [update].
  destruct (String.eqb k key); cbn; [reflexivity|].
  unfold keys in IH. rewrite IH. reflexivity.
Qed.

Lemma find_update_same key f m :
  find key (update key f m) = option_map f (find key m).
Proof.
  induction m as [|[k e] m IH]; [reflexivity|]. cbn [update find].
  destruct (String.eqb k key) eqn:Ek; cbn [find]; rewrite Ek;
    [reflexivity | exact IH].
Qed.

Lemma find_update_other key key' f m :
  key <> key' -> find key (update key' f m) = find key m.
Proof.
  intros Hne. induction m as [|[k e] m IH]; [reflexivity|].
  cbn [update find].
  destruct (String.eqb k key') eqn:Ek'; cbn [find].
  - apply String.eqb_eq in Ek'. subst k.
    destruct (String.eqb key' key) eqn:Ek; [|reflexivity].
    apply String.eqb_eq in Ek. congruence.
  - destruct (String.eqb k key); [reflexivity | exact IH].
Qed.

Lemma find_In key e m : find key m = Some e -> In (key, e) m.
Proof.
  induction m as [|[k e'] m IH]; cbn [find]; [discriminate|].
  destruct (String.eqb k key) eqn:Ek.
  - apply String.eqb_eq in Ek. intros [= ->]. subst. left. reflexivity.
  - intros H. right. exact (IH H).
Qed.

Lemma find_None_keys key m : find key m = None <-> ~ In key (keys m).
Proof.
  induction m as [|[k e] m IH]; cbn [find keys map fst In].
  - tauto.
  - destruct (String.eqb_spec k key) as [->|Hne].
    + split; [discriminate | tauto].
    + unfold keys in IH. rewrite IH. tauto.
Qed.

Lemma length_update key f m : length (update key f m) = length m.
Proof.
  rewrite <- (length_map fst (update key f m)), <- (length_map fst m).
  exact (f_equal (@length string) (keys_update key f m)).
Qed.

Lemma insert_NoDup n kv m m' :
  NoDup (keys m) -> insert n kv m = Some (m', true) -> NoDup (keys m').
Proof.
  unfold insert. intros Hnd.
  destruct (find (fst kv) m) eqn:Ef; [discriminate|].
  destruct (length m <? n)%nat; [|discriminate].
  intros [= <-]. unfold keys. rewrite map_app. cbn [map].
  apply find_None_keys in Ef.
  apply NoDup_app; [exact Hnd | repeat constructor; intros [] | ].
  intros x Hx [<-|[]]. exact (Ef Hx).
Qed.
End PoolMap.
Arguments t : clear implicits.
End PoolMap.

(** ** The engine state *)

(** [Impl::Element].  The handler pointer is its method table together
    with the value it points at; the [updated] closure is identified by
    the name it was registered under (event [Updated]). *)
Record Element (V : Type) := {
  serializable : Handler.t V;
  item : V
}.
Arguments serializable {V}.
Arguments item {V}.

Definition ElementMap (V : Type) := PoolMap.t (Element V).

(** The fields of [PersistentConfig::Impl] the commands use, and the
    calls made so far. *)
Record Impl (V : Type) := {
  elements_ : ElementMap V;
  current_response_ : Response;
  current_enumerate_index_ : nat;
  trace : list Event
}.
Arguments elements_ {V}.
Arguments current_response_ {V}.
Arguments current_enumerate_index_ {V}.
Arguments trace {V}.

(** ** A small configuration, used to run the model *)

Module Example.

(** A group holding one byte.  Its binary form is that byte; [Set]
    stores the first character of the value and accepts every key. *)
Definition byte_handler (schema : list byte) : Handler.t byte :=
  {| Handler.Enumerate := fun _ _ => 0;
     Handler.Read := fun _ _ => (0, Some 0);
     Handler.Set_ := fun v _ value =>
       match list_byte_of_string value with
       | b :: _ => (b, 0)
       | [] => (v, 0)
       end;
     Handler.WriteBinary := fun v => [[v]];
     Handler.ReadBinary := fun v s =>
       match s with
       | b :: _ => (b, 1%nat, 0)
       | [] => (v, 0%nat, 1)
       end;
     Handler.WriteSchema := [schema];
     Handler.SetDefault := fun _ => x00 |}.

(** A stand-in for the CRC32 primitive: the sum of the bytes. *)
Definition checksum (data : list byte) : Z :=
  fold_left (fun acc b => acc + Bytes.Z_of_byte b) data 0.

Definition max_string : Z := 2 ^ 24.

Definition group (schema : list byte) (v : byte) : Element byte :=
  {| serializable := byte_handler schema; item := v |}.

Definition engine (m : ElementMap byte) : Impl byte :=
  {| elements_ := m;
     current_response_ := 0%nat;
     current_enumerate_index_ := 0%nat;
     trace := [] |}.

Definition two_groups : Impl byte :=
  engine [("a"%string, group [x01] x11); ("b"%string, group [x02] x22)].

Definition unnamed_group : Impl byte :=
  engine [(""%string, group [x01] x11)].

(** Only group "b" is registered. *)
Definition only_b : Impl byte :=
  engine [("b"%string, group [x02] x00)].

(** The image [Write] produces for [two_groups]. *)
Definition two_groups_image : list byte :=
  ([x01; x61] ++ [x01; x00; x00; x00] ++ [x01; x00; x00; x00] ++ [x11])
  ++ ([x01; x62] ++ [x02; x00; x00; x00] ++ [x01; x00; x00; x00] ++ [x22])
  ++ [x00; x00; x00; x00].

(** [two_groups] after a schema change of group "a". *)
Definition a_changed : Impl byte :=
  engine [("a"%string, group [x05] x00); ("b"%string, group [x02] x00)].

(** The payload of [long_record_image]: the byte the handler of "a"
    reads, then bytes that happen to look like a record for "b". *)
Definition long_payload : list byte :=
  [x07] ++ [x01; x62] ++ [x02; x00; x00; x00] ++ [x01; x00; x00; x00]
  ++ [x99].

(** A region holding one record, for group "a", with the schema CRC of
    [two_groups] and a length field of 12, the size of [long_payload];
    then the terminator. *)
Definition long_record_image : list byte :=
  [x01; x61] ++ [x01; x00; x00; x00] ++ [x0c; x00; x00; x00]
  ++ long_payload ++ [x00; x00; x00; x00].

End Example.

(** ** The engine: [PersistentConfig::Impl] *)

Definition kMaxSize : nat := 16.

Section PersistentConfig.

(** The in-memory value behind a handler. *)
Context {V : Type}.
(** [base::CalculateCrc], the CRC32 primitive (mjlib/base/crc.h). *)
Variable CalculateCrc : list byte -> Z.
(** [telemetry::Format::kMaxStringSize] (mjlib/telemetry/format.h). *)
Variable kMaxStringSize : Z.

Import Bytes.

Definition emit (evs : list Event) (impl : Impl V) : Impl V :=
  {| elements_ := elements_ impl;
     current_response_ := current_response_ impl;
     current_enumerate_index_ := current_enumerate_index_ impl;
     trace := trace impl ++ evs |}.

Definition set_elements (m : ElementMap V) (impl : Impl V) : Impl V :=
  {| elements_ := m;
     current_response_ := current_response_ impl;
     current_enumerate_index_ := current_enumerate_index_ impl;
     trace := trace impl |}.

Definition set_item (name : string) (v : V) (impl : Impl V) : Impl V :=
  set_elements
    (PoolMap.update name
       (fun e => {| serializable := serializable e; item := v |})
       (elements_ impl))
    impl.

(** [PersistentConfig::RegisterDetail]; [None] is the failed
    [MJ_ASSERT] (or the exhausted pool). *)
Definition RegisterDetail (name : string) (base : Handler.t V) (v : V)
    (impl : Impl V) : option (Impl V) :=
  match PoolMap.insert kMaxSize
          (name, {| serializable := base; item := v |})
          (elements_ impl) with
  | Some (m, true) => Some (set_elements m impl)
  | _ => None
  end.

Definition WriteMessage (message : string) (response : Response)
    (impl : Impl V) : Impl V :=
  emit [AsyncWrite response message] impl.

Definition WriteOK (response : Response) (impl : Impl V) : Impl V :=
  WriteMessage ("OK" ++ CRLF) response impl.

Definition UnknownCommand (cmd : string) (response : Response)
    (impl : Impl V) : Impl V :=
  WriteMessage ("ERR unknown subcommand" ++ CRLF) response impl.

(** *** Enumerate *)

(** One entry into [EnumerateCallback]: the new state and, when a
    handler was started, the error its completion will report. *)
Definition EnumerateCallback_step (error : error_code) (impl : Impl V)
  : Impl V * option error_code :=
  if negb (error =? 0) then
    (emit [Callback (current_response_ impl) error] impl, None)
  else
    match nth_error (elements_ impl) (current_enumerate_index_ impl) with
    | None => (WriteOK (current_response_ impl) impl, None)
    | Some (name, element) =>
        let impl :=
          {| elements_ := elements_ impl;
             current_response_ := current_response_ impl;
             current_enumerate_index_ :=
               S (current_enumerate_index_ impl);
             trace := trace impl |} in
        (emit [HandlerEnumerate name] impl,
         Some (Handler.Enumerate (serializable element)
                 (item element) name))
    end.

(** The continuation: each handler completion re-enters
    [EnumerateCallback]. *)
Fixpoint EnumerateCallback (fuel : nat) (error : error_code) (impl : Impl V)
  : option (Impl V) :=
  match fuel with
  | O => None
  | S fuel' =>
      match EnumerateCallback_step error impl with
      | (impl', None) => Some impl'
      | (impl', Some err) => EnumerateCallback fuel' err impl'
      end
  end.

Definition Enumerate (response : Response) (impl : Impl V) : option (Impl V) :=
  let impl :=
    {| elements_ := elements_ impl;
       current_response_ := response;
       current_enumerate_index_ := 0;
       trace := trace impl |} in
  EnumerateCallback (S (length (elements_ impl))) 0 impl.

(** *** Get and Set *)

Definition Get (field : string) (response : Response) (impl : Impl V)
  : Impl V :=
  let tokenizer := Tokenizer.make field "." in
  let (group, tokenizer) := Tokenizer.next tokenizer in
  match PoolMap.find group (elements_ impl) with
  | None => WriteMessage ("ERR unknown group" ++ CRLF) response impl
  | Some element =>
      let impl :=
        {| elements_ := elements_ impl;
           current_response_ := response;
           current_enumerate_index_ := current_enumerate_index_ impl;
           trace := trace impl |} in
      let (err, completion) :=
        Handler.Read (serializable element) (item element)
          (Tokenizer.remaining tokenizer) in
      let impl :=
        emit [HandlerRead group (Tokenizer.remaining tokenizer)] impl in
      let impl :=
        match completion with
        | None => impl
        | Some error =>
            if negb (error =? 0)
            then emit [Callback (current_response_ impl) error] impl
            else WriteMessage CRLF (current_response_ impl) impl
        end in
      if negb (err =? 0)
      then WriteMessage ("ERR error reading" ++ CRLF) response impl
      else impl
  end.

Definition Set_ (command : string) (response : Response) (impl : Impl V)
  : Impl V :=
  let tokenizer := Tokenizer.make command "." in
  let (group, tokenizer) := Tokenizer.next tokenizer in
  match PoolMap.find group (elements_ impl) with
  | None => WriteMessage ("ERR unknown group" ++ CRLF) response impl
  | Some element =>
      let name_value :=
        Tokenizer.make (Tokenizer.remaining tokenizer) " " in
      let (key, name_value) := Tokenizer.next name_value in
      let value := Tokenizer.remaining name_value in
      let (v, result) :=
        Handler.Set_ (serializable element) (item element) key value in
      let impl := emit [HandlerSet group key value] (set_item group v impl) in
      if result =? 0 then WriteOK response (emit [Updated group] impl)
      else WriteMessage ("ERR error setting" ++ CRLF) response impl
  end.

(** *** Load *)

Definition WriteTo {S : Type} `{WriteStream S}
    (spans : list (list byte)) (s : S) : S :=
  fold_left write spans s.

Definition CalculateSchemaCrc (base : Handler.t V) : Z :=
  let schema_stream :=
    WriteTo (Handler.WriteSchema base)
      {| bw_capacity := 2048; bw_buffer := [] |} in
  wrap 32 (CalculateCrc (bw_buffer schema_stream)).

Inductive LoopExit := Break | Continue.

(** One trip through the [while (true)] of [DoLoad], on the flash
    cursor and the engine. *)
Definition DoLoad_body (st : BufferReadStream.t * Impl V)
  : LoopExit * (BufferReadStream.t * Impl V) :=
  let (flash_stream, impl) := st in
  let (maybe_name_size, flash_stream) := Format.ReadVaruint flash_stream in
  match maybe_name_size with
  | None => (Break, (flash_stream, impl))
  | Some name_size =>
      if (name_size =? 0) || (name_size >=? wrap 32 kMaxStringSize)
      then (Break, (flash_stream, impl))
      else
        let name :=
          string_of_list_byte
            (BufferReadStream.view name_size flash_stream) in
        let flash_stream :=
          BufferReadStream.ignore name_size flash_stream in
        if BufferReadStream.remaining flash_stream <? 8
        then (Break, (flash_stream, impl))
        else
          let (maybe_expected_crc, flash_stream) :=
            Format.Read_u32 flash_stream in
          let (maybe_data_size, flash_stream) :=
            Format.Read_u32 flash_stream in
          match maybe_expected_crc, maybe_data_size with
          | Some expected_crc, Some data_size =>
              match PoolMap.find name (elements_ impl) with
              | None =>
                  (Continue,
                   (BufferReadStream.ignore data_size flash_stream, impl))
              | Some element =>
                  let actual_crc :=
                    CalculateSchemaCrc (serializable element) in
                  if negb (actual_crc =? expected_crc)
                  then
                    (Continue,
                     (BufferReadStream.ignore data_size flash_stream,
                      impl))
                  else
                    let '(v, n, _) :=
                      Handler.ReadBinary (serializable element)
                        (item element) flash_stream in
                    (Continue,
                     (skipn n flash_stream,
                      emit [HandlerReadBinary name]
                        (set_item name v impl)))
              end
          | _, _ => (Break, (flash_stream, impl))
          end
  end.

Fixpoint DoLoad_loop (fuel : nat) (st : BufferReadStream.t * Impl V)
  : option (BufferReadStream.t * Impl V) :=
  match fuel with
  | O => None
  | S fuel' =>
      match DoLoad_body st with
      | (Break, st') => Some st'
      | (Continue, st') => DoLoad_loop fuel' st'
      end
  end.

(** The scan of [DoLoad] over the region [info] that
    [flash_.GetInfo ()] delimits: where the cursor stops, and the
    engine then. *)
Definition DoLoad_scan (info : list byte) (impl : Impl V)
  : option (BufferReadStream.t * Impl V) :=
  DoLoad_loop (S (length info)) (info, impl).

Definition notify_all (impl : Impl V) : Impl V :=
  fold_left (fun i el => emit [Updated (fst el)] i) (elements_ impl) impl.

Definition DoLoad (info : list byte) (impl : Impl V) : option (Impl V) :=
  match DoLoad_scan info impl with
  | None => None
  | Some (_, impl') => Some (notify_all impl')
  end.

Definition Load (info : list byte) (response : Response) (impl : Impl V)
  : option (Impl V) :=
  match DoLoad info impl with
  | None => None
  | Some impl' => Some (WriteOK response impl')
  end.

(** *** The record codec, in the spec's words *)

(** Decoding the head of one flash record: the name, the stored schema
    CRC, the declared data length and the cursor at the data; nothing
    when the name length is unreadable, zero or oversized, or when fewer
    than eight bytes follow the name. *)
Definition decode_header (s : BufferReadStream.t)
  : option (string * Z * Z * BufferReadStream.t) :=
  match Format.ReadVaruint s with
  | (None, _) => None
  | (Some name_size, s1) =>
      if (name_size =? 0) || (name_size >=? wrap 32 kMaxStringSize)
      then None
      else
        let s2 := BufferReadStream.ignore name_size s1 in
        if BufferReadStream.remaining s2 <? 8 then None
        else
          match Format.Read_u32 s2 with
          | (Some crc, s3) =>
              match Format.Read_u32 s3 with
              | (Some len, s4) =>
                  Some (string_of_list_byte
                          (BufferReadStream.view name_size s1),
                        crc, len, s4)
              | (None, _) => None
              end
          | (None, _) => None
          end
  end.

(** One record, as [Write] lays it out. *)
Definition encode_record (item_pair : string * Element V) : list byte :=
  let name := list_byte_of_string (fst item_pair) in
  let data :=
    concat (Handler.WriteBinary (serializable (snd item_pair))
              (item (snd item_pair))) in
  Format.encode_varuint (Z.of_nat (length name)) ++ name
  ++ Format.encode_u32 (CalculateSchemaCrc (serializable (snd item_pair)))
  ++ Format.encode_u32 (Z.of_nat (length data)) ++ data.

Definition terminator : list byte := [x00; x00; x00; x00].

(** The whole image: the records in registry order, then the
    terminator. *)
Definition encode_image (m : ElementMap V) : list byte :=
  flat_map encode_record m ++ terminator.

(** *** Write and Default *)

Definition WriteBinary {S : Type} `{WriteStream S}
    (element : Element V) (s : S) : S :=
  WriteTo (Handler.WriteBinary (serializable element) (item element)) s.

(** The body of the [for] of [Write]. *)
Definition Write_element (flash_stream : FlashWriteStream)
    (item_pair : string * Element V) : FlashWriteStream :=
  let element := snd item_pair in
  let flash_stream :=
    Format.WriteString flash_stream
      (list_byte_of_string (fst item_pair)) in
  let flash_stream :=
    Format.Write_u32 flash_stream
      (wrap 32 (CalculateSchemaCrc (serializable element))) in
  let size_stream := WriteBinary element {| size_ := 0 |} in
  let data_size := wrap 32 (size size_stream) in
  let flash_stream := Format.Write_u32 flash_stream data_size in
  WriteBinary element flash_stream.

Definition Write (response : Response) (impl : Impl V) : Impl V :=
  let impl := emit [FlashUnlock] impl in
  let impl := emit [FlashErase] impl in
  let flash_stream := {| fw_trace := trace impl |} in
  let flash_stream :=
    fold_left Write_element (elements_ impl) flash_stream in
  let flash_stream := Format.Write_u32 flash_stream (wrap 32 0) in
  let impl :=
    {| elements_ := elements_ impl;
       current_response_ := current_response_ impl;
       current_enumerate_index_ := current_enumerate_index_ impl;
       trace := fw_trace flash_stream |} in
  let impl := emit [FlashLock] impl in
  WriteOK response impl.

Definition Default (response : Response) (impl : Impl V) : Impl V :=
  let impl :=
    emit (map (fun item_pair => HandlerSetDefault (fst item_pair))
            (elements_ impl))
      (set_elements
         (map (fun item_pair =>
                 (fst item_pair,
                  {| serializable := serializable (snd item_pair);
                     item := Handler.SetDefault
                               (serializable (snd item_pair))
                               (item (snd item_pair)) |}))
            (elements_ impl))
         impl) in
  WriteOK response impl.

(** *** Command *)

Definition Command (info : list byte) (command : string)
    (response : Response) (impl : Impl V) : option (Impl V) :=
  let tokenizer := Tokenizer.make command " " in
  let (cmd, tokenizer) := Tokenizer.next tokenizer in
  if String.eqb cmd "enumerate" then Enumerate response impl
  else if String.eqb cmd "get"
  then Some (Get (Tokenizer.remaining tokenizer) response impl)
  else if String.eqb cmd "set"
  then Some (Set_ (Tokenizer.remaining tokenizer) response impl)
  else if String.eqb cmd "load" then Load info response impl
  else if String.eqb cmd "write" then Some (Write response impl)
  else if String.eqb cmd "default" then Some (Default response impl)
  else Some (UnknownCommand cmd response impl).

(** ** Specification-level definitions *)

Implicit Types (impl : Impl V) (s : BufferReadStream.t) (m : ElementMap V).

(** What the scan does with a decoded record. *)
Definition dispatch_record (name : string) (crc len : Z)
    (s : BufferReadStream.t) (impl : Impl V)
  : BufferReadStream.t * Impl V :=
  match PoolMap.find name (elements_ impl) with
  | None => (BufferReadStream.ignore len s, impl)
  | Some element =>
      if negb (CalculateSchemaCrc (serializable element) =? crc)
      then (BufferReadStream.ignore len s, impl)
      else
        let '(v, n, _) :=
          Handler.ReadBinary (serializable element) (item element) s in
        (skipn n s, emit [HandlerReadBinary name] (set_item name v impl))
  end.

Definition handlers m : list (string * Handler.t V) :=
  map (fun kv => (fst kv, serializable (snd kv))) m.

(** During the scan the registry keeps its names and handlers, and the
    only calls made are [ReadBinary] calls. *)
Definition scan_related impl impl' : Prop :=
  handlers (elements_ impl') = handlers (elements_ impl)
  /\ exists applied,
       trace impl' = trace impl ++ map HandlerReadBinary applied.

(** The enumeration in the spec's words: visit the groups in registry
    order; a step that reports an error hands it to the completion
    callback and ends the command; past the last group, reply [OK]. *)
Fixpoint enumerate_visits (response : Response)
    (l : list (string * Element V)) : list Event :=
  match l with
  | [] => [AsyncWrite response ("OK" ++ CRLF)]
  | (name, element) :: l' =>
      HandlerEnumerate name
      :: (let err :=
            Handler.Enumerate (serializable element) (item element) name in
          if err =? 0 then enumerate_visits response l'
          else [Callback response err])
  end.

Definition enumerate_error (kv : string * Element V) : error_code :=
  Handler.Enumerate (serializable (snd kv)) (item (snd kv)) (fst kv).

(** A reply that reports an error to the client. *)
Definition is_ERR_reply (e : Event) : bool :=
  match e with
  | AsyncWrite _ message => String.prefix "ERR" message
  | _ => false
  end.

Definition known_verb (cmd : string) : bool :=
  existsb (String.eqb cmd)
    ["enumerate"; "get"; "set"; "load"; "write"; "default"]%string.

(** The calls [Set] makes for a registered group. *)
Definition set_calls (response : Response) (group key value : string)
    (element : Element V) : list Event :=
  HandlerSet group key value
  :: (if snd (Handler.Set_ (serializable element) (item element) key value)
         =? 0
      then [Updated group; AsyncWrite response ("OK" ++ CRLF)]
      else [AsyncWrite response ("ERR error setting" ++ CRLF)]).

(** The calls [Get] makes for a registered group. *)
Definition get_calls (response : Response) (group field : string)
    (element : Element V) : list Event :=
  let (err, completion) :=
    Handler.Read (serializable element) (item element) field in
  HandlerRead group field
  :: match completion with
     | None => []
     | Some error =>
         if negb (error =? 0) then [Callback response error]
         else [AsyncWrite response CRLF]
     end
  ++ (if negb (err =? 0)
      then [AsyncWrite response ("ERR error reading" ++ CRLF)]
      else []).

(** A name the format can carry: not empty (a zero name length is the
    terminator) and shorter than the string bound. *)
Definition storable_name (name : string) : Prop :=
  name <> ""%string
  /\ Z.of_nat (String.length name) < wrap 32 kMaxStringSize.

Definition payload (element : Element V) : list byte :=
  concat (Handler.WriteBinary (serializable element) (item element)).

(** The length field can hold the size of the payload. *)
Definition payload_fits (element : Element V) : Prop :=
  Z.of_nat (length (payload element)) < 2 ^ 32.

(** [ReadBinary] of [hl] takes back exactly what [WriteBinary] of [hw]
    produced for [v], whatever follows it in the stream. *)
Definition reads_back (hl hw : Handler.t V) (v : V) : Prop :=
  forall (v' : V) (tail : list byte),
    fst (Handler.ReadBinary hl v' (concat (Handler.WriteBinary hw v) ++ tail))
    = (v, length (concat (Handler.WriteBinary hw v))).

(** Handlers with the same name and the same schema CRC agree on the
    binary form. *)
Definition compatible (written : ElementMap V)
    (hs : list (string * Handler.t V)) : Prop :=
  forall name ew hl,
    In (name, ew) written ->
    PoolMap.find name hs = Some hl ->
    CalculateSchemaCrc hl = CalculateSchemaCrc (serializable ew) ->
    reads_back hl (serializable ew) (item ew).

(** What the scan does to the engine on the record written for [kv]. *)
Definition apply_record (kv : string * Element V) impl : Impl V :=
  match PoolMap.find (fst kv) (elements_ impl) with
  | None => impl
  | Some element =>
      if negb (CalculateSchemaCrc (serializable element)
               =? CalculateSchemaCrc (serializable (snd kv)))
      then impl
      else emit [HandlerReadBinary (fst kv)]
             (set_item (fst kv) (item (snd kv)) impl)
  end.

Definition apply_records (written : ElementMap V) impl : Impl V :=
  fold_left (fun i kv => apply_record kv i) written impl.

(** ** Properties of the engine *)

(** *** Registration *)

(** Registration keeps the names distinct and the registry within its
    capacity. *)
Lemma RegisterDetail_invariant (name : string) (base : Handler.t V) (v : V)
    impl impl' :
  NoDup (PoolMap.keys (elements_ impl)) ->
  RegisterDetail name base v impl = Some impl' ->
  NoDup (PoolMap.keys (elements_ impl'))
  /\ (length (elements_ impl') <= kMaxSize)%nat
  /\ PoolMap.find name (elements_ impl) = None.
Proof.
  unfold RegisterDetail. intros Hnd.
  destruct (PoolMap.insert kMaxSize _ (elements_ impl))
    as [[m' [|]]|] eqn:Ei; try discriminate.
  intros [= <-]. cbn [set_elements elements_].
  split; [exact (PoolMap.insert_NoDup _ _ _ _ Hnd Ei)|].
  unfold PoolMap.insert in Ei. cbn [fst] in Ei.
  destruct (PoolMap.find name (elements_ impl)); [discriminate|].
  destruct (Nat.ltb_spec (length (elements_ impl)) kMaxSize);
    [|discriminate].
  inversion Ei; subst. rewrite length_app. cbn [length]. split; [lia|].
  reflexivity.
Qed.

(** *** The scan, one record at a time *)

Lemma DoLoad_body_Break s impl :
  decode_header s = None ->
  exists s', DoLoad_body (s, impl) = (Break, (s', impl)).
Proof.
  unfold decode_header, DoLoad_body.
  destruct (Format.ReadVaruint s) as [[name_size|] s1]; [|eauto].
  destruct ((name_size =? 0) || _); [eauto|].
  destruct (_ <? 8); [eauto|].
  destruct (Format.Read_u32 _) as [[crc|] s3];
    destruct (Format.Read_u32 s3) as [[len|] s4]; try discriminate; eauto.
Qed.

Lemma DoLoad_body_Continue s impl name crc len s4 :
  decode_header s = Some (name, crc, len, s4) ->
  DoLoad_body (s, impl) = (Continue, dispatch_record name crc len s4 impl).
Proof.
  unfold decode_header, DoLoad_body, dispatch_record.
  destruct (Format.ReadVaruint s) as [[name_size|] s1]; [|discriminate].
  destruct ((name_size =? 0) || _); [discriminate|].
  destruct (_ <? 8); [discriminate|].
  destruct (Format.Read_u32 _) as [[crc'|] s3]; [|discriminate].
  destruct (Format.Read_u32 s3) as [[len'|] s4']; [|discriminate].
  intros [= <- <- <- <-].
  destruct (PoolMap.find _ _) as [element|]; [|reflexivity].
  destruct (negb _); [reflexivity|].
  destruct (Handler.ReadBinary _ _ _) as [[v n] e]. reflexivity.
Qed.

Lemma Read_u32_shorter s v s' :
  Format.Read_u32 s = (Some v, s') -> (length s' < length s)%nat.
Proof.
  unfold Format.Read_u32.
  destruct s as [|b0 [|b1 [|b2 [|b3 r]]]]; try discriminate.
  intros [= _ <-]. simpl. lia.
Qed.

Lemma decode_header_shorter s name crc len s4 :
  decode_header s = Some (name, crc, len, s4) ->
  (length s4 < length s)%nat.
Proof.
  unfold decode_header.
  destruct (Format.ReadVaruint s) as [[name_size|] s1] eqn:Ev; [|discriminate].
  destruct ((name_size =? 0) || _); [discriminate|].
  destruct (_ <? 8); [discriminate|].
  destruct (Format.Read_u32 _) as [[crc'|] s3] eqn:E3; [|discriminate].
  destruct (Format.Read_u32 s3) as [[len'|] s4'] eqn:E4; [|discriminate].
  intros [= _ _ _ <-].
  apply Format.ReadVaruint_loop_consumes in Ev.
  apply Read_u32_shorter in E3, E4.
  pose proof (BufferReadStream.ignore_length name_size s1). lia.
Qed.

Lemma dispatch_record_length name crc len s impl :
  (length (fst (dispatch_record name crc len s impl)) <= length s)%nat.
Proof.
  unfold dispatch_record.
  destruct (PoolMap.find _ _) as [element|];
    [destruct (negb _)|]; cbn [fst];
    try apply BufferReadStream.ignore_length.
  destruct (Handler.ReadBinary _ _ _) as [[v n] e]. cbn [fst].
  rewrite length_skipn. lia.
Qed.

(** *** Termination of the scan *)

Lemma DoLoad_loop_total (fuel : nat) :
  forall s impl,
    (length s < fuel)%nat -> exists r, DoLoad_loop fuel (s, impl) = Some r.
Proof.
  induction fuel as [|fuel IH]; intros s impl Hlen; [lia|].
  cbn [DoLoad_loop].
  destruct (decode_header s) as [[[[name crc] len] s4]|] eqn:Eh.
  - rewrite (DoLoad_body_Continue _ _ _ _ _ _ Eh).
    destruct (dispatch_record name crc len s4 impl) as [s' impl'] eqn:Ed.
    apply IH.
    pose proof (dispatch_record_length name crc len s4 impl) as Hd.
    rewrite Ed in Hd. cbn [fst] in Hd.
    apply decode_header_shorter in Eh. lia.
  - destruct (DoLoad_body_Break s impl Eh) as [s' ->]. eauto.
Qed.

Lemma DoLoad_loop_more_fuel (fuel : nat) :
  forall fuel' st r,
    DoLoad_loop fuel st = Some r -> (fuel <= fuel')%nat ->
    DoLoad_loop fuel' st = Some r.
Proof.
  induction fuel as [|fuel IH]; intros fuel' st r E Hle; [discriminate|].
  destruct fuel' as [|fuel']; [lia|].
  cbn [DoLoad_loop] in *.
  destruct (DoLoad_body st) as [[|] st']; [exact E|].
  apply IH; [exact E | lia].
Qed.

Lemma DoLoad_loop_fuel_irrelevant fuel fuel' st r r' :
  DoLoad_loop fuel st = Some r -> DoLoad_loop fuel' st = Some r' -> r = r'.
Proof.
  intros E E'. destruct (Nat.le_ge_cases fuel fuel') as [Hle|Hle].
  - rewrite (DoLoad_loop_more_fuel _ _ _ _ E Hle) in E'. congruence.
  - rewrite (DoLoad_loop_more_fuel _ _ _ _ E' Hle) in E. congruence.
Qed.

Lemma DoLoad_scan_total info impl :
  exists r, DoLoad_scan info impl = Some r.
Proof. apply DoLoad_loop_total. lia. Qed.

(** *** What the scan preserves *)

Lemma handlers_keys m : map fst (handlers m) = PoolMap.keys m.
Proof. unfold handlers, PoolMap.keys. rewrite map_map. reflexivity. Qed.

Lemma handlers_update name (f : Element V -> Element V) m :
  (forall e, serializable (f e) = serializable e) ->
  handlers (PoolMap.update name f m) = handlers m.
Proof.
  intros Hf. induction m as [|[k e] m IH]; [reflexivity|].
  cbn [PoolMap.update]. destruct (String.eqb k name); cbn [handlers map fst snd].
  - rewrite Hf. reflexivity.
  - fold (handlers (PoolMap.update name f m)). rewrite IH. reflexivity.
Qed.

Lemma handlers_set_item name v impl :
  handlers (elements_ (set_item name v impl)) = handlers (elements_ impl).
Proof. apply handlers_update. reflexivity. Qed.

Lemma scan_related_refl impl : scan_related impl impl.
Proof. split; [reflexivity|]. exists []. symmetry. apply app_nil_r. Qed.

Lemma scan_related_trans impl1 impl2 impl3 :
  scan_related impl1 impl2 -> scan_related impl2 impl3 ->
  scan_related impl1 impl3.
Proof.
  intros [H1 [a1 T1]] [H2 [a2 T2]]. split; [congruence|].
  exists (a1 ++ a2). rewrite T2, T1, map_app, app_assoc. reflexivity.
Qed.

Lemma dispatch_record_related name crc len s impl :
  scan_related impl (snd (dispatch_record name crc len s impl)).
Proof.
  unfold dispatch_record.
  destruct (PoolMap.find _ _) as [element|];
    [destruct (negb _)|]; cbn [snd]; try apply scan_related_refl.
  destruct (Handler.ReadBinary _ _ _) as [[v n] e]. cbn [snd].
  split; [apply handlers_set_item|]. exists [name]. reflexivity.
Qed.

Lemma DoLoad_loop_related (fuel : nat) :
  forall s impl s' impl',
    DoLoad_loop fuel (s, impl) = Some (s', impl') -> scan_related impl impl'.
Proof.
  induction fuel as [|fuel IH]; intros s impl s' impl' E; [discriminate|].
  cbn [DoLoad_loop] in E.
  destruct (decode_header s) as [[[[name crc] len] s4]|] eqn:Eh.
  - rewrite (DoLoad_body_Continue _ _ _ _ _ _ Eh) in E.
    pose proof (dispatch_record_related name crc len s4 impl) as Hd.
    destruct (dispatch_record name crc len s4 impl) as [s1 impl1].
    cbn [snd] in Hd. eapply scan_related_trans; [exact Hd|].
    eapply IH; exact E.
  - destruct (DoLoad_body_Break s impl Eh) as [s1 E1]. rewrite E1 in E.
    inversion E; subst. apply scan_related_refl.
Qed.

Lemma notify_all_trace_from (l : list (string * Element V)) :
  forall impl,
    trace (fold_left (fun i el => emit [Updated (fst el)] i) l impl)
    = trace impl ++ map (fun el => Updated (fst el)) l.
Proof.
  induction l as [|el l IH]; intros impl; cbn [fold_left map].
  - symmetry. apply app_nil_r.
  - rewrite IH. cbn [emit trace]. rewrite <- app_assoc. reflexivity.
Qed.

Lemma notify_all_trace impl :
  trace (notify_all impl)
  = trace impl ++ map Updated (PoolMap.keys (elements_ impl)).
Proof.
  unfold notify_all, PoolMap.keys. rewrite notify_all_trace_from, map_map.
  reflexivity.
Qed.

Lemma notify_all_elements_from (l : list (string * Element V)) :
  forall impl,
    elements_ (fold_left (fun i el => emit [Updated (fst el)] i) l impl)
    = elements_ impl.
Proof.
  induction l as [|el l IH]; intros impl; cbn [fold_left]; [reflexivity|].
  rewrite IH. reflexivity.
Qed.

Lemma notify_all_elements impl : elements_ (notify_all impl) = elements_ impl.
Proof. apply notify_all_elements_from. Qed.

(** *** Load: notification and reply *)

Lemma DoLoad_outcome (info : list byte) impl :
  exists stop impl_s applied impl',
    DoLoad_scan info impl = Some (stop, impl_s)
    /\ trace impl_s = trace impl ++ map HandlerReadBinary applied
    /\ DoLoad info impl = Some impl'
    /\ trace impl'
       = trace impl_s ++ map Updated (PoolMap.keys (elements_ impl)).
Proof.
  destruct (DoLoad_scan_total info impl) as [[stop impl_s] Es].
  pose proof (DoLoad_loop_related _ _ _ _ _ Es) as [Hh [applied Ht]].
  exists stop, impl_s, applied, (notify_all impl_s).
  unfold DoLoad. rewrite Es. repeat split; [exact Ht|].
  rewrite notify_all_trace, <- !handlers_keys, Hh. reflexivity.
Qed.

(** C6.  Whatever the region holds, the scan ends, having made nothing
    but [ReadBinary] calls, and then the [updated] callback of every
    registered group is invoked once, in registry order. *)
Theorem DoLoad_notifies_every_group (info : list byte) impl :
  exists stop impl_s applied impl',
    DoLoad_scan info impl = Some (stop, impl_s)
    /\ trace impl_s = trace impl ++ map HandlerReadBinary applied
    /\ DoLoad info impl = Some impl'
    /\ trace impl'
       = trace impl_s ++ map Updated (PoolMap.keys (elements_ impl)).
Proof. apply DoLoad_outcome. Qed.

(** C7.  The [load] command terminates on every region and makes, after
    the handler and update calls, exactly one reply, [OK]; no error is
    ever handed to the completion callback. *)
Theorem load_always_replies_OK (info : list byte) (response : Response) impl :
  exists impl' applied,
    Command info "load" response impl = Some impl'
    /\ trace impl'
       = trace impl ++ map HandlerReadBinary applied
         ++ map Updated (PoolMap.keys (elements_ impl))
         ++ [AsyncWrite response ("OK" ++ CRLF)].
Proof.
  destruct (DoLoad_outcome info impl)
    as (stop & impl_s & applied & impl1 & Es & Ts & El & Tl).
  exists (WriteOK response impl1), applied.
  change (Command info "load" response impl) with (Load info response impl).
  unfold Load. rewrite El. split; [reflexivity|].
  cbn [WriteOK WriteMessage emit trace]. rewrite Tl, Ts.
  rewrite <- !app_assoc. reflexivity.
Qed.

(** C5.  A decoded record whose name is not registered, or whose stored
    CRC differs from the group's current schema CRC, makes the scan move
    the cursor by the declared length and go on with the engine exactly
    as it was: no handler is called and no value changes. *)
Theorem scan_skips_foreign_record (fuel : nat) s impl name crc len data :
  decode_header s = Some (name, crc, len, data) ->
  (PoolMap.find name (elements_ impl) = None
   \/ exists element,
        PoolMap.find name (elements_ impl) = Some element
        /\ CalculateSchemaCrc (serializable element) <> crc) ->
  DoLoad_body (s, impl)
  = (Continue, (BufferReadStream.ignore len data, impl))
  /\ DoLoad_loop (S fuel) (s, impl)
     = DoLoad_loop fuel (BufferReadStream.ignore len data, impl).
Proof.
  intros Eh Hskip.
  assert (Eb : DoLoad_body (s, impl)
               = (Continue, (BufferReadStream.ignore len data, impl))).
  { rewrite (DoLoad_body_Continue _ _ _ _ _ _ Eh). unfold dispatch_record.
    destruct Hskip as [-> | (element & -> & Hcrc)]; [reflexivity|].
    apply Z.eqb_neq in Hcrc. rewrite Hcrc. reflexivity. }
  split; [exact Eb|]. cbn [DoLoad_loop]. rewrite Eb. reflexivity.
Qed.

(** *** Write *)

Lemma WriteTo_flash (spans : list (list byte)) :
  forall fs : FlashWriteStream,
    fw_trace (WriteTo spans fs)
    = fw_trace fs ++ map FlashByte (concat spans).
Proof.
  unfold WriteTo.
  induction spans as [|d spans IH]; intros fs; cbn [fold_left concat].
  - symmetry. apply app_nil_r.
  - rewrite IH. cbn [write FlashWriteStream_write fw_trace].
    rewrite map_app, app_assoc. reflexivity.
Qed.

Lemma WriteTo_size (spans : list (list byte)) :
  forall ss : SizeCountingStream,
    size (WriteTo spans ss) = size ss + Z.of_nat (length (concat spans)).
Proof.
  unfold WriteTo, size.
  induction spans as [|d spans IH]; intros ss; cbn [fold_left concat].
  - cbn [length]. lia.
  - rewrite IH. cbn [write SizeCountingStream_write size_].
    rewrite length_app. lia.
Qed.

Lemma Write_element_trace (fs : FlashWriteStream) (kv : string * Element V) :
  fw_trace (Write_element fs kv)
  = fw_trace fs ++ map FlashByte (encode_record kv).
Proof.
  unfold Write_element, encode_record, WriteBinary.
  rewrite WriteTo_flash, WriteTo_size. cbn [size size_ Z.add].
  unfold Format.Write_u32, Format.WriteString, Format.WriteVaruint.
  cbn [write FlashWriteStream_write fw_trace].
  rewrite !Format.encode_u32_wrap.
  rewrite !map_app, <- !app_assoc. reflexivity.
Qed.

Lemma Write_elements_trace m :
  forall fs : FlashWriteStream,
    fw_trace (fold_left Write_element m fs)
    = fw_trace fs ++ map FlashByte (flat_map encode_record m).
Proof.
  induction m as [|kv m IH]; intros fs; cbn [fold_left flat_map].
  - symmetry. apply app_nil_r.
  - rewrite IH, Write_element_trace, map_app, app_assoc. reflexivity.
Qed.

Lemma Write_trace (response : Response) impl :
  trace (Write response impl)
  = trace impl ++ [FlashUnlock; FlashErase]
    ++ map FlashByte (encode_image (elements_ impl))
    ++ [FlashLock; AsyncWrite response ("OK" ++ CRLF)].
Proof.
  unfold Write, WriteOK, WriteMessage, encode_image.
  cbn [emit trace elements_]. unfold Format.Write_u32.
  cbn [write FlashWriteStream_write fw_trace].
  rewrite Write_elements_trace. cbn [fw_trace].
  rewrite map_app, <- !app_assoc. reflexivity.
Qed.

(** C3.  [Write] unlocks, erases, programs the records of the registered
    groups in registry order followed by the terminator, locks, and
    replies.  Each record is the name (varint length, bytes), the schema
    CRC computed by [CalculateSchemaCrc] as in the load, the length
    field, and the handler's bytes; the length field is the count the
    size-only sink reaches on the dry run, which is the number of bytes
    the real run programs; the terminator reads back as a name length of
    zero. *)
Theorem Write_sequence (info : list byte) (response : Response) impl :
  Command info "write" response impl = Some (Write response impl)
  /\ trace (Write response impl)
  = trace impl ++ [FlashUnlock; FlashErase]
    ++ map FlashByte (encode_image (elements_ impl))
    ++ [FlashLock; AsyncWrite response ("OK" ++ CRLF)]
  /\ elements_ (Write response impl) = elements_ impl
  /\ (forall (element : Element V) (fs : FlashWriteStream),
        size (WriteBinary element {| size_ := 0 |})
        = Z.of_nat
            (length (concat (Handler.WriteBinary (serializable element)
                               (item element))))
        /\ fw_trace (WriteBinary element fs)
           = fw_trace fs
             ++ map FlashByte
                  (concat (Handler.WriteBinary (serializable element)
                             (item element))))
  /\ fst (Format.ReadVaruint terminator) = Some 0.
Proof.
  split; [reflexivity|].
  split; [apply Write_trace|]. split; [reflexivity|].
  split; [|reflexivity].
  intros element fs. unfold WriteBinary.
  rewrite WriteTo_size, WriteTo_flash. split; reflexivity.
Qed.

(** *** Enumerate *)

Lemma nth_error_skipn_nil {A : Type} (l : list A) :
  forall i, nth_error l i = None -> skipn i l = [].
Proof.
  induction l as [|x l IH]; intros [|i]; cbn; try reflexivity;
    try discriminate. apply IH.
Qed.

Lemma nth_error_skipn_cons {A : Type} (l : list A) :
  forall i x, nth_error l i = Some x -> skipn i l = x :: skipn (S i) l.
Proof.
  induction l as [|y l IH]; intros [|i] x; cbn; try discriminate.
  - intros [= ->]. reflexivity.
  - intros H. rewrite (IH i x H). reflexivity.
Qed.

Lemma EnumerateCallback_runs (fuel : nat) :
  forall impl,
    (length (skipn (current_enumerate_index_ impl) (elements_ impl)) < fuel)%nat ->
    exists impl',
      EnumerateCallback fuel 0 impl = Some impl'
      /\ trace impl'
         = trace impl
           ++ enumerate_visits (current_response_ impl)
                (skipn (current_enumerate_index_ impl) (elements_ impl))
      /\ elements_ impl' = elements_ impl.
Proof.
  induction fuel as [|fuel IH]; intros impl Hlen; [lia|].
  cbn [EnumerateCallback]. unfold EnumerateCallback_step.
  cbn [Z.eqb negb].
  destruct (nth_error (elements_ impl) (current_enumerate_index_ impl))
    as [[name element]|] eqn:En.
  - rewrite (nth_error_skipn_cons _ _ _ En) in Hlen |- *.
    cbn [enumerate_visits length] in Hlen |- *.
    set (err := Handler.Enumerate (serializable element) (item element) name).
    destruct (Z.eqb_spec err 0) as [Hz|Hnz].
    + rewrite Hz.
      match goal with
      | |- context [EnumerateCallback fuel 0 ?i] =>
          destruct (IH i) as (impl' & E & T & El)
      end.
      { cbn [current_enumerate_index_ emit elements_]. lia. }
      exists impl'. split; [exact E|]. split; [|exact El].
      rewrite T. cbn [emit trace current_response_ current_enumerate_index_
                        elements_].
      rewrite <- app_assoc. reflexivity.
    + destruct fuel as [|fuel]; [cbn [length] in Hlen; lia|].
      cbn [EnumerateCallback]. unfold EnumerateCallback_step.
      apply Z.eqb_neq in Hnz. rewrite Hnz. cbn [negb].
      eexists. split; [reflexivity|]. split; [|reflexivity].
      cbn [emit trace current_response_]. rewrite <- app_assoc. reflexivity.
  - rewrite (nth_error_skipn_nil _ _ En). cbn [enumerate_visits].
    eexists. split; [reflexivity|]. split; reflexivity.
Qed.

Lemma enumerate_visits_all_ok (response : Response)
    (l : list (string * Element V)) :
  Forall (fun kv => enumerate_error kv = 0) l ->
  enumerate_visits response l
  = map HandlerEnumerate (map fst l) ++ [AsyncWrite response ("OK" ++ CRLF)].
Proof.
  induction 1 as [|[name element] l Hx _ IH]; [reflexivity|].
  cbn [enumerate_visits map fst app]. unfold enumerate_error in Hx.
  cbn [fst snd] in Hx. rewrite Hx. cbn [Z.eqb]. rewrite IH. reflexivity.
Qed.

Lemma enumerate_visits_first_error (response : Response)
    (l1 l2 : list (string * Element V)) (kv : string * Element V) :
  Forall (fun kv => enumerate_error kv = 0) l1 ->
  enumerate_error kv <> 0 ->
  enumerate_visits response (l1 ++ kv :: l2)
  = map HandlerEnumerate (map fst (l1 ++ [kv]))
    ++ [Callback response (enumerate_error kv)].
Proof.
  intros Hok Herr.
  induction Hok as [|[name element] l Hx _ IH].
  - destruct kv as [name element]. cbn [app enumerate_visits map fst].
    unfold enumerate_error in *. cbn [fst snd] in *.
    apply Z.eqb_neq in Herr. rewrite Herr. reflexivity.
  - cbn [app enumerate_visits map fst]. unfold enumerate_error in Hx.
    cbn [fst snd] in Hx. rewrite Hx. cbn [Z.eqb]. rewrite IH. reflexivity.
Qed.

(** C2.  The [enumerate] command runs to an end and makes exactly the
    calls of [enumerate_visits]: when no step reports an error, every
    registered group's [Enumerate] once, in registry order, then the [OK]
    reply; when a step reports an error, the groups up to and including
    that one, then the completion callback with that error, with no reply
    and no later group. *)
Theorem Enumerate_visits_in_order (info : list byte) (response : Response)
    impl :
  (exists impl',
     Command info "enumerate" response impl = Some impl'
     /\ trace impl'
        = trace impl ++ enumerate_visits response (elements_ impl)
     /\ elements_ impl' = elements_ impl)
  /\ (Forall (fun kv => enumerate_error kv = 0) (elements_ impl) ->
      enumerate_visits response (elements_ impl)
      = map HandlerEnumerate (PoolMap.keys (elements_ impl))
        ++ [AsyncWrite response ("OK" ++ CRLF)])
  /\ (forall l1 kv l2,
        elements_ impl = l1 ++ kv :: l2 ->
        Forall (fun kv => enumerate_error kv = 0) l1 ->
        enumerate_error kv <> 0 ->
        enumerate_visits response (elements_ impl)
        = map HandlerEnumerate (PoolMap.keys (l1 ++ [kv]))
          ++ [Callback response (enumerate_error kv)]).
Proof.
  split; [|split].
  - change (Command info "enumerate" response impl)
      with (Enumerate response impl).
    unfold Enumerate.
    match goal with
    | |- context [EnumerateCallback ?f 0 ?i] =>
        destruct (EnumerateCallback_runs f i) as (impl' & E & T & El)
    end.
    { cbn [current_enumerate_index_ elements_ skipn]. lia. }
    exists impl'. split; [exact E|]. split; [exact T | exact El].
  - apply enumerate_visits_all_ok.
  - intros l1 kv l2 -> Hok Herr. apply enumerate_visits_first_error; assumption.
Qed.

(** *** Get, Set and the dispatcher *)

Lemma Set_trace (command : string) (response : Response) impl :
  trace (Set_ command response impl)
  = trace impl
    ++ match PoolMap.find (fst (split_first "." command)) (elements_ impl) with
       | None => [AsyncWrite response ("ERR unknown group" ++ CRLF)]
       | Some element =>
           set_calls response (fst (split_first "." command))
             (fst (split_first " " (snd (split_first "." command))))
             (snd (split_first " " (snd (split_first "." command))))
             element
       end.
Proof.
  unfold Set_, Tokenizer.next, Tokenizer.remaining.
  cbn [Tokenizer.position_ Tokenizer.delimiters_].
  rewrite Tokenizer.scan_single.
  destruct (split_first "." command) as [group rest].
  cbn [fst snd Tokenizer.position_ Tokenizer.delimiters_].
  destruct (PoolMap.find group (elements_ impl)) as [element|];
    [|reflexivity].
  rewrite Tokenizer.scan_single.
  destruct (split_first " " rest) as [key value].
  cbn [fst snd Tokenizer.position_]. unfold set_calls.
  destruct (Handler.Set_ _ _ key value) as [v result]. cbn [snd].
  destruct (result =? 0);
    cbn [WriteOK WriteMessage emit trace set_item set_elements];
    rewrite <- ?app_assoc; reflexivity.
Qed.

Lemma Get_trace (field : string) (response : Response) impl :
  trace (Get field response impl)
  = trace impl
    ++ match PoolMap.find (fst (split_first "." field)) (elements_ impl) with
       | None => [AsyncWrite response ("ERR unknown group" ++ CRLF)]
       | Some element =>
           get_calls response (fst (split_first "." field))
             (snd (split_first "." field)) element
       end.
Proof.
  unfold Get, Tokenizer.next, Tokenizer.remaining.
  cbn [Tokenizer.position_ Tokenizer.delimiters_].
  rewrite Tokenizer.scan_single.
  destruct (split_first "." field) as [group rest].
  cbn [fst snd Tokenizer.position_ Tokenizer.delimiters_].
  destruct (PoolMap.find group (elements_ impl)) as [element|];
    [|reflexivity].
  unfold get_calls.
  destruct (Handler.Read _ _ rest) as [err [error|]];
    [destruct (negb (error =? 0))|]; destruct (negb (err =? 0));
    cbn [WriteMessage emit trace current_response_ app];
    rewrite <- ?app_assoc; reflexivity.
Qed.

Lemma Command_dispatch (info : list byte) (command : string)
    (response : Response) impl :
  Command info command response impl
  = let cmd := fst (split_first " " command) in
    let remainder := snd (split_first " " command) in
    if String.eqb cmd "enumerate" then Enumerate response impl
    else if String.eqb cmd "get" then Some (Get remainder response impl)
    else if String.eqb cmd "set" then Some (Set_ remainder response impl)
    else if String.eqb cmd "load" then Load info response impl
    else if String.eqb cmd "write" then Some (Write response impl)
    else if String.eqb cmd "default" then Some (Default response impl)
    else Some (UnknownCommand cmd response impl).
Proof.
  unfold Command, Tokenizer.next, Tokenizer.remaining.
  cbn [Tokenizer.position_ Tokenizer.delimiters_].
  rewrite Tokenizer.scan_single.
  destruct (split_first " " command) as [cmd remainder]. reflexivity.
Qed.

Lemma Command_set (info : list byte) (command : string)
    (response : Response) impl :
  fst (split_first " " command) = "set"%string ->
  Command info command response impl
  = Some (Set_ (snd (split_first " " command)) response impl).
Proof. intros Hv. rewrite Command_dispatch, Hv. reflexivity. Qed.

Lemma Set_elements (command : string) (response : Response) impl :
  elements_ (Set_ command response impl)
  = match PoolMap.find (fst (split_first "." command)) (elements_ impl) with
    | None => elements_ impl
    | Some element =>
        PoolMap.update (fst (split_first "." command))
          (fun e =>
             {| serializable := serializable e;
                item :=
                  fst (Handler.Set_ (serializable element) (item element)
                         (fst (split_first " " (snd (split_first "." command))))
                         (snd (split_first " " (snd (split_first "." command))))) |})
          (elements_ impl)
    end.
Proof.
  unfold Set_, Tokenizer.next, Tokenizer.remaining.
  cbn [Tokenizer.position_ Tokenizer.delimiters_].
  rewrite Tokenizer.scan_single.
  destruct (split_first "." command) as [group rest].
  cbn [fst snd Tokenizer.position_ Tokenizer.delimiters_].
  destruct (PoolMap.find group (elements_ impl)) as [element|];
    [|reflexivity].
  rewrite Tokenizer.scan_single.
  destruct (split_first " " rest) as [key value].
  cbn [fst snd Tokenizer.position_].
  destruct (Handler.Set_ _ _ key value) as [v result]. cbn [fst].
  destruct (result =? 0); reflexivity.
Qed.

(** C8.  For every line whose verb is [set]: with [group] the text
    before the first ['.'] of the remainder, [key] the text between that
    ['.'] and the next space, and [value] the text after that space, an
    unregistered [group] gets the reply [ERR unknown group] and nothing
    else happens; a registered one has its handler's [Set key value]
    called, and then, when that returns zero, [updated] followed by the
    reply [OK], and otherwise only the reply [ERR error setting]. *)
Theorem set_command_outcome (info : list byte) (command : string)
    (response : Response) impl :
  fst (split_first " " command) = "set"%string ->
  let remainder := snd (split_first " " command) in
  let group := fst (split_first "." remainder) in
  let key := fst (split_first " " (snd (split_first "." remainder))) in
  let value := snd (split_first " " (snd (split_first "." remainder))) in
  exists impl',
    Command info command response impl = Some impl'
    /\ match PoolMap.find group (elements_ impl) with
       | None =>
           trace impl'
           = trace impl
             ++ [AsyncWrite response ("ERR unknown group" ++ CRLF)]
           /\ elements_ impl' = elements_ impl
       | Some element =>
           let result :=
             snd (Handler.Set_ (serializable element) (item element)
                    key value) in
           trace impl'
           = trace impl
             ++ HandlerSet group key value
                :: (if result =? 0
                    then [Updated group;
                          AsyncWrite response ("OK" ++ CRLF)]
                    else [AsyncWrite response
                            ("ERR error setting" ++ CRLF)])
       end.
Proof.
  intros Hv remainder group key value.
  exists (Set_ remainder response impl).
  split; [apply Command_set; exact Hv|].
  rewrite Set_trace, Set_elements. fold group key value.
  destruct (PoolMap.find group (elements_ impl)) as [element|];
    [reflexivity | split; reflexivity].
Qed.

(** C9, as the engine has it.  An unknown subcommand and an unknown
    group are answered with an [ERR] reply, written with the command's
    own completion callback and with nothing else done.  The engine does
    not look at the shape of a [get] or [set] line: the text before the
    first ['.'] (all of it when there is none) is looked up as the group,
    and for a registered group the handler is called with what follows,
    empty or not; the reply is then an [ERR] line exactly when the
    handler returns nonzero. *)
Theorem protocol_error_replies (info : list byte) (command : string)
    (response : Response) impl :
  let cmd := fst (split_first " " command) in
  let remainder := snd (split_first " " command) in
  let group := fst (split_first "." remainder) in
  let field := snd (split_first "." remainder) in
  (known_verb cmd = false ->
   Command info command response impl
   = Some (emit [AsyncWrite response ("ERR unknown subcommand" ++ CRLF)]
             impl))
  /\ (cmd = "get"%string \/ cmd = "set"%string ->
      PoolMap.find group (elements_ impl) = None ->
      Command info command response impl
      = Some (emit [AsyncWrite response ("ERR unknown group" ++ CRLF)]
                impl))
  /\ (cmd = "set"%string ->
      forall element,
        PoolMap.find group (elements_ impl) = Some element ->
        exists impl',
          Command info command response impl = Some impl'
          /\ trace impl'
             = trace impl
               ++ set_calls response group (fst (split_first " " field))
                    (snd (split_first " " field)) element)
  /\ (cmd = "get"%string ->
      forall element,
        PoolMap.find group (elements_ impl) = Some element ->
        exists impl',
          Command info command response impl = Some impl'
          /\ trace impl'
             = trace impl ++ get_calls response group field element).
Proof.
  intros cmd remainder group field. rewrite Command_dispatch.
  fold cmd remainder. cbv zeta.
  split; [|split; [|split]].
  - unfold known_verb. cbn [existsb]. intros Hk.
    repeat (apply orb_false_elim in Hk; destruct Hk as [-> Hk]).
    reflexivity.
  - intros [-> | ->] Hf; cbn [String.eqb Ascii.eqb Bool.eqb]; f_equal.
    + unfold Get, Tokenizer.next, Tokenizer.remaining.
      cbn [Tokenizer.position_ Tokenizer.delimiters_].
      rewrite Tokenizer.scan_single.
      unfold group in Hf. destruct (split_first "." remainder) as [g r].
      cbn [fst] in Hf. rewrite Hf. reflexivity.
    + unfold Set_, Tokenizer.next, Tokenizer.remaining.
      cbn [Tokenizer.position_ Tokenizer.delimiters_].
      rewrite Tokenizer.scan_single.
      unfold group in Hf. destruct (split_first "." remainder) as [g r].
      cbn [fst] in Hf. rewrite Hf. reflexivity.
  - intros -> element Hf. cbn [String.eqb Ascii.eqb Bool.eqb].
    eexists. split; [reflexivity|].
    rewrite Set_trace. fold group field. rewrite Hf. reflexivity.
  - intros -> element Hf. cbn [String.eqb Ascii.eqb Bool.eqb].
    eexists. split; [reflexivity|].
    rewrite Get_trace. fold group field. rewrite Hf. reflexivity.
Qed.

(** *** Reading back what [Write] wrote *)

Lemma length_list_byte_of_string (name : string) :
  length (list_byte_of_string name) = String.length name.
Proof.
  unfold list_byte_of_string. rewrite length_map.
  induction name as [|c name IH]; [reflexivity|].
  cbn [list_ascii_of_string length String.length]. rewrite IH. reflexivity.
Qed.

Lemma wrap_range (w v : Z) : 0 <= w -> 0 <= wrap w v < 2 ^ w.
Proof. intros Hw. unfold wrap. apply Z.mod_pos_bound. lia. Qed.

Lemma CalculateSchemaCrc_wrapped (base : Handler.t V) :
  wrap 32 (CalculateSchemaCrc base) = CalculateSchemaCrc base.
Proof.
  unfold CalculateSchemaCrc, wrap. rewrite Z.mod_mod by lia. reflexivity.
Qed.

Lemma decode_header_record (kv : string * Element V) (tail : list byte) :
  storable_name (fst kv) ->
  decode_header (encode_record kv ++ tail)
  = Some (fst kv, CalculateSchemaCrc (serializable (snd kv)),
          wrap 32 (Z.of_nat (length (payload (snd kv)))),
          payload (snd kv) ++ tail).
Proof.
  intros [Hne Hlen]. unfold decode_header, encode_record.
  fold (payload (snd kv)). rewrite <- !app_assoc.
  pose proof (wrap_range 32 kMaxStringSize ltac:(lia)) as Hk.
  pose proof (length_list_byte_of_string (fst kv)) as Hl.
  rewrite Format.ReadVaruint_encode by lia.
  assert (Hpos : Z.of_nat (length (list_byte_of_string (fst kv))) <> 0).
  { rewrite Hl. destruct (fst kv); [congruence | cbn [String.length]; lia]. }
  apply Z.eqb_neq in Hpos. rewrite Hpos. cbn [orb].
  rewrite Z.geb_leb.
  replace (wrap 32 kMaxStringSize
           <=? Z.of_nat (length (list_byte_of_string (fst kv))))
    with false by (symmetry; apply Z.leb_gt; lia).
  rewrite BufferReadStream.view_app_exact,
    BufferReadStream.ignore_app_exact, string_of_list_byte_of_string.
  unfold BufferReadStream.remaining. rewrite !length_app.
  replace (_ <? 8) with false.
  2:{ symmetry. apply Z.ltb_ge. cbn [Format.encode_u32 length]. lia. }
  rewrite !Format.Read_u32_encode, CalculateSchemaCrc_wrapped.
  reflexivity.
Qed.

Lemma find_handlers name m :
  PoolMap.find name (handlers m)
  = option_map serializable (PoolMap.find name m).
Proof.
  induction m as [|[k e] m IH]; [reflexivity|].
  cbn [handlers map fst snd PoolMap.find].
  destruct (String.eqb k name); [reflexivity | exact IH].
Qed.

Lemma dispatch_written_record (kv : string * Element V) (tail : list byte)
    impl :
  payload_fits (snd kv) ->
  compatible [kv] (handlers (elements_ impl)) ->
  dispatch_record (fst kv) (CalculateSchemaCrc (serializable (snd kv)))
    (wrap 32 (Z.of_nat (length (payload (snd kv)))))
    (payload (snd kv) ++ tail) impl
  = (tail, apply_record kv impl).
Proof.
  intros Hfit Hc. unfold dispatch_record, apply_record.
  assert (Hw : wrap 32 (Z.of_nat (length (payload (snd kv))))
               = Z.of_nat (length (payload (snd kv)))).
  { unfold wrap. apply Z.mod_small. unfold payload_fits in Hfit. lia. }
  rewrite Hw, BufferReadStream.ignore_app_exact.
  destruct (PoolMap.find (fst kv) (elements_ impl)) as [element|] eqn:Ef;
    [|reflexivity].
  destruct (Z.eqb_spec (CalculateSchemaCrc (serializable element))
              (CalculateSchemaCrc (serializable (snd kv)))) as [Hcrc|Hcrc];
    cbn [negb]; [|reflexivity].
  assert (Hrb : reads_back (serializable element) (serializable (snd kv))
                  (item (snd kv))).
  { apply (Hc (fst kv) (snd kv)).
    - left. destruct kv; reflexivity.
    - rewrite find_handlers, Ef. reflexivity.
    - exact Hcrc. }
  specialize (Hrb (item element) tail). fold (payload (snd kv)) in Hrb.
  destruct (Handler.ReadBinary _ _ _) as [[v n] e]. cbn [fst] in Hrb.
  inversion Hrb; subst.
  rewrite skipn_app, skipn_all, Nat.sub_diag. reflexivity.
Qed.

Lemma handlers_apply_record (kv : string * Element V) impl :
  handlers (elements_ (apply_record kv impl)) = handlers (elements_ impl).
Proof.
  unfold apply_record.
  destruct (PoolMap.find _ _) as [element|]; [|reflexivity].
  destruct (negb _); [reflexivity|]. apply handlers_set_item.
Qed.

Lemma compatible_cons kv (written : ElementMap V) hs :
  compatible (kv :: written) hs ->
  compatible [kv] hs /\ compatible written hs.
Proof.
  intros Hc. split; intros name ew hl Hin; apply Hc.
  - destruct Hin as [<-|[]]. left. reflexivity.
  - right. exact Hin.
Qed.

(** The scan over a written image: every record is dispatched, and the
    cursor stops right behind the first byte of the terminator. *)
Lemma scan_written_image (written : ElementMap V) :
  forall (fuel : nat) (tail : list byte) impl,
    (length written < fuel)%nat ->
    Forall (fun kv => storable_name (fst kv) /\ payload_fits (snd kv))
      written ->
    compatible written (handlers (elements_ impl)) ->
    DoLoad_loop fuel (flat_map encode_record written ++ terminator ++ tail,
                      impl)
    = Some ([x00; x00; x00] ++ tail, apply_records written impl).
Proof.
  induction written as [|kv written IH]; intros fuel tail impl Hfuel Hok Hc;
    (destruct fuel as [|fuel]; [cbn [length] in Hfuel; lia|]).
  - reflexivity.
  - inversion Hok as [|? ? [Hname Hfit] Hok']; subst.
    apply compatible_cons in Hc. destruct Hc as [Hc1 Hc2].
    cbn [flat_map DoLoad_loop]. rewrite <- app_assoc.
    rewrite (DoLoad_body_Continue _ _ _ _ _ _
               (decode_header_record kv _ Hname)).
    rewrite (dispatch_written_record kv _ impl Hfit Hc1).
    cbn [apply_records fold_left]. apply IH.
    + cbn [length] in Hfuel. lia.
    + exact Hok'.
    + rewrite handlers_apply_record. exact Hc2.
Qed.

Lemma apply_record_find_other (kv : string * Element V) impl name :
  name <> fst kv ->
  PoolMap.find name (elements_ (apply_record kv impl))
  = PoolMap.find name (elements_ impl).
Proof.
  intros Hne. unfold apply_record.
  destruct (PoolMap.find (fst kv) _) as [element|]; [|reflexivity].
  destruct (negb _); [reflexivity|].
  cbn [emit set_item set_elements elements_].
  apply PoolMap.find_update_other. exact Hne.
Qed.

Lemma apply_records_untouched (written : ElementMap V) :
  forall impl name,
    ~ In name (PoolMap.keys written) ->
    PoolMap.find name (elements_ (apply_records written impl))
    = PoolMap.find name (elements_ impl).
Proof.
  induction written as [|kv written IH]; intros impl name Hn;
    [reflexivity|].
  cbn [apply_records fold_left]. fold (apply_records written).
  cbn [PoolMap.keys map In] in Hn.
  rewrite IH by (unfold PoolMap.keys; tauto).
  apply apply_record_find_other. intros ->. tauto.
Qed.

Lemma apply_records_restores (written : ElementMap V) :
  NoDup (PoolMap.keys written) ->
  forall impl name ew el,
    In (name, ew) written ->
    PoolMap.find name (elements_ impl) = Some el ->
    CalculateSchemaCrc (serializable el)
    = CalculateSchemaCrc (serializable ew) ->
    PoolMap.find name (elements_ (apply_records written impl))
    = Some {| serializable := serializable el; item := item ew |}.
Proof.
  induction written as [|kv written IH]; intros Hnd impl name ew el Hin Hf Hcrc;
    [destruct Hin|].
  cbn [PoolMap.keys map] in Hnd. inversion Hnd as [|? ? Hfresh Hnd']; subst.
  cbn [apply_records fold_left]. fold (apply_records written).
  destruct Hin as [->|Hin].
  - rewrite apply_records_untouched by exact Hfresh.
    unfold apply_record. cbn [fst snd]. rewrite Hf.
    apply Z.eqb_eq in Hcrc. rewrite Hcrc. cbn [negb].
    cbn [emit set_item set_elements elements_].
    rewrite PoolMap.find_update_same, Hf. reflexivity.
  - apply IH; [exact Hnd' | exact Hin | | exact Hcrc].
    rewrite apply_record_find_other; [exact Hf|].
    intros ->. apply Hfresh. apply (in_map fst) in Hin. exact Hin.
Qed.

Lemma programmed_from_erase (t t' : list Event) :
  forall acc,
    programmed_from acc (t ++ FlashErase :: t') = programmed_from [] t'.
Proof.
  induction t as [|e t IH]; intros acc; [reflexivity|].
  destruct e; cbn [app programmed_from]; apply IH.
Qed.

Lemma programmed_from_bytes (bs : list byte) (t' : list Event) :
  forall acc,
    programmed_from acc (map FlashByte bs ++ t')
    = programmed_from (acc ++ bs) t'.
Proof.
  induction bs as [|b bs IH]; intros acc; cbn [map app programmed_from].
  - rewrite app_nil_r. reflexivity.
  - rewrite IH, <- app_assoc. reflexivity.
Qed.

Lemma programmed_Write (response : Response) impl :
  programmed (trace (Write response impl)) = encode_image (elements_ impl).
Proof.
  rewrite Write_trace. unfold programmed.
  change (trace impl ++ [FlashUnlock; FlashErase] ++ ?t)
    with (trace impl ++ [FlashUnlock] ++ FlashErase :: t).
  rewrite app_assoc, programmed_from_erase, programmed_from_bytes.
  reflexivity.
Qed.

Lemma find_map_values {A B : Type} (f : A -> B) (l : list (string * A))
    name :
  PoolMap.find name (map (fun kv => (fst kv, f (snd kv))) l)
  = option_map f (PoolMap.find name l).
Proof.
  induction l as [|[k a] l IH]; [reflexivity|].
  cbn [map fst snd PoolMap.find].
  destruct (String.eqb k name); [reflexivity | exact IH].
Qed.

Lemma handlers_Default (response : Response) impl :
  handlers (elements_ (Default response impl)) = handlers (elements_ impl).
Proof.
  unfold Default, handlers. cbn [WriteOK WriteMessage emit set_elements
                                  elements_].
  rewrite map_map. reflexivity.
Qed.

Lemma scan_of_written (response : Response) impl_w impl_l
    (rest : list byte) :
  Forall (fun kv => storable_name (fst kv) /\ payload_fits (snd kv))
    (elements_ impl_w) ->
  compatible (elements_ impl_w) (handlers (elements_ impl_l)) ->
  DoLoad_scan (programmed (trace (Write response impl_w)) ++ rest) impl_l
  = Some ([x00; x00; x00] ++ rest,
          apply_records (elements_ impl_w) impl_l).
Proof.
  intros Hok Hc. rewrite programmed_Write. unfold encode_image.
  rewrite <- app_assoc.
  destruct (DoLoad_scan_total
              (flat_map encode_record (elements_ impl_w)
               ++ terminator ++ rest) impl_l) as [r Er].
  rewrite Er. f_equal.
  eapply DoLoad_loop_fuel_irrelevant; [exact Er|].
  apply (scan_written_image (elements_ impl_w)
           (S (length (elements_ impl_w)))); [lia | exact Hok | exact Hc].
Qed.

(** C1, as the engine has it.  When the registered names are distinct,
    not empty and shorter than the string bound, the payloads fit the
    length field, and handlers that share a name and a schema CRC agree
    on the binary form: [Write], then [Default], then [DoLoad] over a
    region that starts with the programmed bytes gives every group whose
    schema CRC at the load equals the one written the value it had at
    the write. *)
Theorem write_default_load_round_trip (r1 r2 : Response) impl_w impl_l
    (rest : list byte) :
  NoDup (PoolMap.keys (elements_ impl_w)) ->
  Forall (fun kv => storable_name (fst kv) /\ payload_fits (snd kv))
    (elements_ impl_w) ->
  compatible (elements_ impl_w) (handlers (elements_ impl_l)) ->
  exists impl',
    DoLoad (programmed (trace (Write r1 impl_w)) ++ rest)
      (Default r2 impl_l) = Some impl'
    /\ forall name ew el,
         PoolMap.find name (elements_ impl_w) = Some ew ->
         PoolMap.find name (elements_ impl_l) = Some el ->
         CalculateSchemaCrc (serializable el)
         = CalculateSchemaCrc (serializable ew) ->
         PoolMap.find name (elements_ impl')
         = Some {| serializable := serializable el; item := item ew |}.
Proof.
  intros Hnd Hok Hc. unfold DoLoad.
  rewrite scan_of_written by (rewrite ?handlers_Default; assumption).
  eexists. split; [reflexivity|].
  intros name ew el Hw Hl Hcrc. rewrite notify_all_elements.
  assert (Hd : PoolMap.find name (elements_ (Default r2 impl_l))
               = Some {| serializable := serializable el;
                         item := Handler.SetDefault (serializable el)
                                   (item el) |}).
  { unfold Default. cbn [WriteOK WriteMessage emit set_elements elements_].
    rewrite (find_map_values
               (fun e => {| serializable := serializable e;
                            item := Handler.SetDefault (serializable e)
                                      (item e) |})), Hl.
    reflexivity. }
  apply (apply_records_restores _ Hnd _ name ew _
           (PoolMap.find_In _ _ _ Hw) Hd Hcrc).
Qed.

(** C10, as the engine has it.  [Write] ends the image with four zero
    bytes, where a varint zero is one byte.  When the registered names
    are not empty and shorter than the string bound, the payloads fit the
    length field, and handlers that share a name and a schema CRC agree
    on the binary form, the scan over a region that starts with a freshly
    written image dispatches the written records and stops right behind
    the first byte of the terminator: the other three zero bytes and
    everything after them are left unread. *)
Theorem load_stops_at_terminator (response : Response) impl_w impl_l
    (rest : list byte) :
  Forall (fun kv => storable_name (fst kv) /\ payload_fits (snd kv))
    (elements_ impl_w) ->
  compatible (elements_ impl_w) (handlers (elements_ impl_l)) ->
  programmed (trace (Write response impl_w))
  = flat_map encode_record (elements_ impl_w) ++ Format.encode_u32 0
  /\ Format.encode_varuint 0 = [x00]
  /\ DoLoad_scan (programmed (trace (Write response impl_w)) ++ rest) impl_l
     = Some ([x00; x00; x00] ++ rest,
             apply_records (elements_ impl_w) impl_l).
Proof.
  intros Hok Hc. split; [apply programmed_Write|].
  split; [reflexivity|]. apply scan_of_written; assumption.
Qed.

(** The scan stops exactly where no record head can be decoded: on an
    unreadable, zero or oversized name length, or with fewer than eight
    bytes behind the name. *)
Lemma decode_header_None_iff s :
  decode_header s = None
  <-> (fst (Format.ReadVaruint s) = None
       \/ exists name_size s1,
            Format.ReadVaruint s = (Some name_size, s1)
            /\ (name_size = 0
                \/ wrap 32 kMaxStringSize <= name_size
                \/ BufferReadStream.remaining
                     (BufferReadStream.ignore name_size s1) < 8)).
Proof.
  unfold decode_header.
  destruct (Format.ReadVaruint s) as [[name_size|] s1]; cbn [fst].
  2:{ split; [left; reflexivity | reflexivity]. }
  destruct (Z.eqb_spec name_size 0) as [Hz|Hz]; cbn [orb].
  { split; [|reflexivity]. intros _. right. exists name_size, s1. tauto. }
  rewrite Z.geb_leb.
  destruct (Z.leb_spec (wrap 32 kMaxStringSize) name_size) as [Hk|Hk].
  { split; [|reflexivity]. intros _. right. exists name_size, s1. tauto. }
  destruct (Z.ltb_spec
              (BufferReadStream.remaining
                 (BufferReadStream.ignore name_size s1)) 8) as [Hr|Hr].
  { split; [|reflexivity]. intros _. right. exists name_size, s1. tauto. }
  split.
  - unfold BufferReadStream.remaining in Hr.
    destruct (BufferReadStream.ignore name_size s1)
      as [|b0 [|b1 [|b2 [|b3 [|b4 [|b5 [|b6 [|b7 r]]]]]]]];
      cbn [length] in Hr; try lia.
    cbn [Format.Read_u32]. discriminate.
  - intros [Hn | (n & s' & [= <- <-] & [Hn | [Hn | Hn]])];
      [discriminate | lia | lia | lia].
Qed.

End PersistentConfig.

(** ** The model at work *)

Import Example.

(** C4, at a region the scan can meet: the one record, for group "a",
    carries the current schema CRC and a declared length of 12.  The scan
    hands the cursor to [ReadBinary], which takes one byte, and goes on
    from there, eleven bytes before the end of the declared data; the
    next trip decodes those bytes as a record for "b" and applies it, so
    that "b" changes from x22 to x99 although the region holds no record
    for it. *)
Theorem applied_record_leaves_declared_data :
  decode_header max_string long_record_image
  = Some ("a"%string, 1, 12, long_payload ++ [x00; x00; x00; x00])
  /\ option_map (fun e => CalculateSchemaCrc checksum (serializable e))
       (PoolMap.find "a" (elements_ two_groups)) = Some 1
  /\ BufferReadStream.ignore 12 (long_payload ++ [x00; x00; x00; x00])
     = [x00; x00; x00; x00]
  /\ fst (snd (DoLoad_body checksum max_string
                 (long_record_image, two_groups)))
     = skipn 1 long_payload ++ [x00; x00; x00; x00]
  /\ option_map item (PoolMap.find "b" (elements_ two_groups)) = Some x22
  /\ option_map
       (fun impl' => option_map item (PoolMap.find "b" (elements_ impl')))
       (DoLoad checksum max_string long_record_image two_groups)
     = Some (Some x99).
Proof. repeat split; vm_compute; reflexivity. Qed.

(** C1 fails for a group registered under the empty name: its record
    starts with a zero name length, which the scan takes for the
    terminator, so the value written (x11) is not restored and the
    default (x00) stays. *)
Lemma unnamed_group_is_not_restored :
  CalculateSchemaCrc checksum (byte_handler [x01]) = 1
  /\ option_map item (PoolMap.find "" (elements_ unnamed_group)) = Some x11
  /\ option_map
       (fun impl' => option_map item (PoolMap.find "" (elements_ impl')))
       (DoLoad checksum max_string
          (programmed (trace (Write checksum 1%nat unnamed_group)))
          (Default 2%nat (Write checksum 1%nat unnamed_group)))
     = Some (Some x00).
Proof. repeat split; vm_compute; reflexivity. Qed.

(** C10 fails for a group registered under the empty name: the scan
    stops behind the first byte of the image, thirteen bytes before the
    end, and not behind the first byte of the terminator. *)
Lemma unnamed_group_stops_before_terminator :
  programmed (trace (Write checksum 1%nat unnamed_group))
  = [x00] ++ [x01; x00; x00; x00] ++ [x01; x00; x00; x00] ++ [x11]
    ++ [x00; x00; x00; x00]
  /\ option_map fst
       (DoLoad_scan checksum max_string
          (programmed (trace (Write checksum 1%nat unnamed_group)))
          unnamed_group)
     = Some ([x01; x00; x00; x00] ++ [x01; x00; x00; x00] ++ [x11]
             ++ [x00; x00; x00; x00])
  /\ option_map fst
       (DoLoad_scan checksum max_string
          (programmed (trace (Write checksum 1%nat unnamed_group)))
          unnamed_group)
     <> Some [x00; x00; x00].
Proof.
  split; [vm_compute; reflexivity|]. split; [vm_compute; reflexivity|].
  vm_compute. discriminate.
Qed.

(** C9 fails for a [set] line without separators whose text names a
    registered group: the handler is called with an empty key and value,
    accepts them, and the reply is [OK]. *)
Lemma malformed_set_line_gets_OK :
  occurs "." "a" = false
  /\ option_map trace
       (Command checksum max_string [] "set a" 1%nat two_groups)
     = Some [HandlerSet "a" "" ""; Updated "a";
             AsyncWrite 1%nat ("OK" ++ CRLF)]
  /\ option_map (fun impl' => existsb is_ERR_reply (trace impl'))
       (Command checksum max_string [] "set a" 1%nat two_groups)
     = Some false.
Proof. repeat split; vm_compute; reflexivity. Qed.

(** *** The theorems at [two_groups] *)

Lemma byte_handler_reads_back (s1 s2 : list byte) (v : byte) :
  reads_back (byte_handler s1) (byte_handler s2) v.
Proof. intros v' tail. reflexivity. Qed.

Lemma two_groups_storable :
  Forall (fun kv => storable_name max_string (fst kv) /\ payload_fits (snd kv))
    (elements_ two_groups).
Proof.
  repeat constructor; try discriminate; vm_compute; reflexivity.
Qed.

Lemma two_groups_NoDup : NoDup (PoolMap.keys (elements_ two_groups)).
Proof.
  constructor; [cbn; intros [H|[]]; discriminate|].
  constructor; [cbn; tauto | constructor].
Qed.

Lemma two_groups_compatible (impl_l : Impl byte) :
  Forall (fun kv => exists schema, snd kv = byte_handler schema)
    (handlers (elements_ impl_l)) ->
  compatible checksum (elements_ two_groups) (handlers (elements_ impl_l)).
Proof.
  intros Hall name ew hl Hin Hf _.
  assert (Hhl : exists schema, hl = byte_handler schema).
  { apply PoolMap.find_In in Hf. rewrite Forall_forall in Hall.
    exact (Hall _ Hf). }
  destruct Hhl as [schema ->].
  destruct Hin as [E|[E|[]]]; inversion E; subst;
    apply byte_handler_reads_back.
Qed.

Lemma all_byte_handlers_two_groups :
  Forall (fun kv => exists schema, snd kv = byte_handler schema)
    (handlers (elements_ two_groups)).
Proof. repeat constructor; eexists; reflexivity. Qed.

Lemma all_byte_handlers_a_changed :
  Forall (fun kv => exists schema, snd kv = byte_handler schema)
    (handlers (elements_ a_changed)).
Proof. repeat constructor; eexists; reflexivity. Qed.

Lemma write_default_load_round_trip_witness :
  exists impl',
    DoLoad checksum max_string
      (programmed (trace (Write checksum 1%nat two_groups)) ++ [xff; xff])
      (Default 2%nat a_changed) = Some impl'
    /\ forall name ew el,
         PoolMap.find name (elements_ two_groups) = Some ew ->
         PoolMap.find name (elements_ a_changed) = Some el ->
         CalculateSchemaCrc checksum (serializable el)
         = CalculateSchemaCrc checksum (serializable ew) ->
         PoolMap.find name (elements_ impl')
         = Some {| serializable := serializable el; item := item ew |}.
Proof.
  apply (write_default_load_round_trip checksum max_string 1%nat 2%nat
           two_groups a_changed [xff; xff]).
  - exact two_groups_NoDup.
  - exact two_groups_storable.
  - exact (two_groups_compatible a_changed all_byte_handlers_a_changed).
Defined.

Lemma load_stops_at_terminator_witness :
  programmed (trace (Write checksum 1%nat two_groups))
  = flat_map (encode_record checksum) (elements_ two_groups)
    ++ Format.encode_u32 0
  /\ Format.encode_varuint 0 = [x00]
  /\ DoLoad_scan checksum max_string
       (programmed (trace (Write checksum 1%nat two_groups)) ++ [xff; xff])
       two_groups
     = Some ([x00; x00; x00] ++ [xff; xff],
             apply_records checksum (elements_ two_groups) two_groups).
Proof.
  apply (load_stops_at_terminator checksum max_string 1%nat
           two_groups two_groups [xff; xff]).
  - exact two_groups_storable.
  - exact (two_groups_compatible two_groups all_byte_handlers_two_groups).
Defined.

Lemma scan_skips_foreign_record_witness :
  DoLoad_body checksum max_string (two_groups_image, only_b)
  = (Continue,
     (BufferReadStream.ignore 1 (skipn 10 two_groups_image), only_b))
  /\ DoLoad_loop checksum max_string 3 (two_groups_image, only_b)
     = DoLoad_loop checksum max_string 2
         (BufferReadStream.ignore 1 (skipn 10 two_groups_image), only_b).
Proof.
  apply (scan_skips_foreign_record checksum max_string 2 two_groups_image
           only_b "a" 1 1 (skipn 10 two_groups_image)).
  - vm_compute. reflexivity.
  - left. vm_compute. reflexivity.
Defined.

(** The round trip under a schema change: the image of [two_groups],
    loaded into [a_changed] after a reset, restores "b" and leaves "a"
    at its default; both records are passed and the scan stops behind
    the first terminator byte. *)
Lemma schema_change_example :
  programmed (trace (Write checksum 1%nat two_groups)) = two_groups_image
  /\ option_map
       (fun impl' =>
          (option_map item (PoolMap.find "a" (elements_ impl')),
           option_map item (PoolMap.find "b" (elements_ impl')),
           trace impl'))
       (DoLoad checksum max_string two_groups_image
          (Default 2%nat a_changed))
     = Some (Some x00, Some x22,
             [HandlerSetDefault "a"; HandlerSetDefault "b";
              AsyncWrite 2%nat ("OK" ++ CRLF);
              HandlerReadBinary "b"; Updated "a"; Updated "b"]).
Proof. split; vm_compute; reflexivity. Qed.

Lemma set_command_outcome_witness :
  exists impl',
    Command checksum max_string [] "set a.x 5" 1%nat two_groups = Some impl'
    /\ trace impl'
       = [HandlerSet "a" "x" "5"; Updated "a";
          AsyncWrite 1%nat ("OK" ++ CRLF)].
Proof.
  exact (set_command_outcome checksum max_string [] "set a.x 5" 1%nat
           two_groups eq_refl).
Defined.

(** * [mjlib/base/collapse_whitespace.h] *)

Module Collapse.

(** The "C" locale of [std::isspace]: space and the characters 9 to 13. *)
Definition isspace_C (c : ascii) : bool :=
  let n := nat_of_ascii c in
  (n =? 32)%nat || ((9 <=? n)%nat && (n <=? 13)%nat).

Section CollapseWhitespace.

(** [std::isspace] of <cctype>, which depends on the locale. *)
Variable isspace : ascii -> bool.

(** The body of the [for]: the stream written so far and
    [was_whitespace]. *)
Definition CollapseWhitespace_step (st : list ascii * bool) (c : ascii)
  : list ascii * bool :=
  let (ostr, was_whitespace) := st in
  ((if negb was_whitespace || negb (isspace c) then ostr ++ [c] else ostr),
   isspace c).

Definition CollapseWhitespace (str : list ascii) : list ascii :=
  fst (fold_left CollapseWhitespace_step str ([], true)).

(** What the loop appends from [str] on, when entered with
    [was_whitespace]. *)
Fixpoint collapse_from (was_whitespace : bool) (str : list ascii)
  : list ascii :=
  match str with
  | [] => []
  | c :: str' =>
      if negb was_whitespace || negb (isspace c)
      then c :: collapse_from (isspace c) str'
      else collapse_from (isspace c) str'
  end.

Definition starts_with_space (str : list ascii) : bool :=
  match str with
  | [] => false
  | c :: _ => isspace c
  end.

Fixpoint has_space_pair (str : list ascii) : bool :=
  match str with
  | [] => false
  | c1 :: str' =>
      (isspace c1 && starts_with_space str') || has_space_pair str'
  end.

(** [was_whitespace] after the loop has gone through [str]. *)
Definition ends_in_space (was_whitespace : bool) (str : list ascii) : bool :=
  match rev str with
  | [] => was_whitespace
  | c :: _ => isspace c
  end.

Lemma fold_collapse (str : list ascii) :
  forall ostr was,
    fold_left CollapseWhitespace_step str (ostr, was)
    = (ostr ++ collapse_from was str, ends_in_space was str).
Proof.
  induction str as [|c str IH]; intros ostr was.
  - cbn. rewrite app_nil_r. reflexivity.
  - cbn [fold_left CollapseWhitespace_step collapse_from]. rewrite IH.
    f_equal.
    + destruct (negb was || negb (isspace c)); [|reflexivity].
      rewrite <- app_assoc. reflexivity.
    + unfold ends_in_space. cbn [rev].
      destruct (rev str) as [|d r] eqn:Er; reflexivity.
Qed.

Lemma CollapseWhitespace_collapse_from (str : list ascii) :
  CollapseWhitespace str = collapse_from true str.
Proof. unfold CollapseWhitespace. rewrite fold_collapse. reflexivity. Qed.

Lemma collapse_from_app (s t : list ascii) :
  forall was,
    collapse_from was (s ++ t)
    = collapse_from was s ++ collapse_from (ends_in_space was s) t.
Proof.
  induction s as [|c s IH]; intros was; [reflexivity|].
  cbn [app collapse_from]. rewrite IH.
  assert (E : ends_in_space (isspace c) s = ends_in_space was (c :: s)).
  { unfold ends_in_space. cbn [rev].
    destruct (rev s) as [|d r]; reflexivity. }
  rewrite E. destruct (negb was || negb (isspace c)); reflexivity.
Qed.

Lemma collapse_from_head (was : bool) (str : list ascii) :
  starts_with_space (collapse_from was str) = true -> was = false.
Proof.
  revert was. induction str as [|c str IH]; intros was; [discriminate|].
  cbn [collapse_from].
  destruct was; cbn [negb orb]; [|reflexivity].
  destruct (isspace c) eqn:Ec; cbn [negb].
  - intros H. apply IH in H. discriminate.
  - cbn [starts_with_space]. rewrite Ec. discriminate.
Qed.

Lemma collapse_from_no_pair (str : list ascii) :
  forall was, has_space_pair (collapse_from was str) = false.
Proof.
  induction str as [|c str IH]; intros was; [reflexivity|].
  cbn [collapse_from].
  destruct (negb was || negb (isspace c)); [|apply IH].
  cbn [has_space_pair]. rewrite IH, orb_false_r.
  destruct (isspace c) eqn:Ec; [|reflexivity]. cbn [andb].
  destruct (starts_with_space (collapse_from true str)) eqn:Eh;
    [|reflexivity].
  apply collapse_from_head in Eh. discriminate.
Qed.

Lemma collapse_from_true_normal (str : list ascii) :
  starts_with_space (collapse_from true str) = false
  /\ has_space_pair (collapse_from true str) = false.
Proof.
  split.
  - destruct (starts_with_space (collapse_from true str)) eqn:Eh;
      [|reflexivity].
    apply collapse_from_head in Eh. discriminate.
  - apply collapse_from_no_pair.
Qed.

(** X1.  The result never starts with a whitespace character and never
    holds two whitespace characters in a row. *)
Theorem CollapseWhitespace_normalized (str : list ascii) :
  starts_with_space (CollapseWhitespace str) = false
  /\ has_space_pair (CollapseWhitespace str) = false.
Proof.
  rewrite CollapseWhitespace_collapse_from. apply collapse_from_true_normal.
Qed.

Lemma collapse_from_fixed (str : list ascii) :
  forall was,
    (was = true -> starts_with_space str = false) ->
    has_space_pair str = false ->
    collapse_from was str = str.
Proof.
  induction str as [|c str IH]; intros was Hhead Hpair; [reflexivity|].
  cbn [collapse_from]. cbn [has_space_pair] in Hpair.
  apply orb_false_elim in Hpair. destruct Hpair as [Hc Hpair].
  assert (Hkeep : negb was || negb (isspace c) = true).
  { destruct was; [|reflexivity]. cbn [starts_with_space] in Hhead.
    rewrite Hhead by reflexivity. reflexivity. }
  rewrite Hkeep. f_equal. apply IH; [|exact Hpair].
  intros Hw. rewrite Hw in Hc. exact Hc.
Qed.

(** X2.  The strings the function leaves as they are are exactly those
    that do not start with whitespace and hold no two whitespace
    characters in a row. *)
Theorem CollapseWhitespace_fixed_iff (str : list ascii) :
  CollapseWhitespace str = str
  <-> starts_with_space str = false /\ has_space_pair str = false.
Proof.
  rewrite CollapseWhitespace_collapse_from. split.
  - intros E. rewrite <- E. apply collapse_from_true_normal.
  - intros [Hh Hp].
    apply collapse_from_fixed; [intros _; exact Hh | exact Hp].
Qed.

(** X3.  Collapsing twice is collapsing once. *)
Theorem CollapseWhitespace_idempotent (str : list ascii) :
  CollapseWhitespace (CollapseWhitespace str) = CollapseWhitespace str.
Proof.
  rewrite !CollapseWhitespace_collapse_from.
  destruct (collapse_from_true_normal str) as [Hh Hp].
  apply collapse_from_fixed; [intros _; exact Hh | exact Hp].
Qed.

Lemma filter_collapse_from (str : list ascii) :
  forall was,
    filter (fun c => negb (isspace c)) (collapse_from was str)
    = filter (fun c => negb (isspace c)) str.
Proof.
  induction str as [|c str IH]; intros was; [reflexivity|].
  cbn [collapse_from filter].
  destruct (isspace c) eqn:Ec; cbn [negb].
  - rewrite orb_false_r. destruct (negb was); [|apply IH].
    cbn [filter]. rewrite Ec. cbn [negb]. apply IH.
  - rewrite orb_true_r. cbn [filter]. rewrite Ec. cbn [negb].
    f_equal. apply IH.
Qed.

(** X4.  The characters that are not whitespace all survive, in their
    order: only whitespace is ever dropped. *)
Theorem CollapseWhitespace_keeps_words (str : list ascii) :
  filter (fun c => negb (isspace c)) (CollapseWhitespace str)
  = filter (fun c => negb (isspace c)) str.
Proof.
  rewrite CollapseWhitespace_collapse_from. apply filter_collapse_from.
Qed.

Lemma collapse_from_spaces (run : list ascii) :
  forallb isspace run = true -> collapse_from true run = [].
Proof.
  induction run as [|c run IH]; [reflexivity|].
  cbn [forallb collapse_from]. intros H.
  apply andb_prop in H. destruct H as [Hc Hrun].
  rewrite Hc. cbn [negb orb]. exact (IH Hrun).
Qed.

(** X5.  The result is empty exactly when every character of the input
    is whitespace (the empty input included). *)
Theorem CollapseWhitespace_empty_iff (str : list ascii) :
  CollapseWhitespace str = [] <-> forallb isspace str = true.
Proof.
  rewrite CollapseWhitespace_collapse_from. split.
  - intros E. pose proof (filter_collapse_from str true) as F.
    rewrite E in F. cbn [filter] in F.
    induction str as [|c str IH]; [reflexivity|].
    cbn [filter forallb] in *.
    destruct (isspace c) eqn:Ec; cbn [negb] in F; [|discriminate].
    cbn [andb]. apply IH; [|exact F].
    cbn [collapse_from] in E. rewrite Ec in E. exact E.
  - apply collapse_from_spaces.
Qed.

Lemma ends_in_space_snoc (was : bool) (s : list ascii) (c : ascii) :
  ends_in_space was (s ++ [c]) = isspace c.
Proof. unfold ends_in_space. rewrite rev_app_distr. reflexivity. Qed.

(** X6.  A whitespace character that follows a character that is not
    whitespace is kept as it is, and what follows it is collapsed like a
    string of its own: a run of whitespace is replaced by its first
    character, and whitespace at the end of the input is not
    stripped. *)
Theorem CollapseWhitespace_after_word (s rest : list ascii) (x w : ascii) :
  isspace x = false ->
  isspace w = true ->
  CollapseWhitespace (s ++ x :: w :: rest)
  = CollapseWhitespace (s ++ [x]) ++ w :: CollapseWhitespace rest.
Proof.
  intros Hx Hw. rewrite !CollapseWhitespace_collapse_from.
  change (s ++ x :: w :: rest) with (s ++ [x] ++ w :: rest).
  rewrite app_assoc, collapse_from_app, ends_in_space_snoc, Hx.
  cbn [collapse_from negb orb]. rewrite Hw. reflexivity.
Qed.

(** X7.  Whitespace that directly follows a whitespace character does
    not matter: with or without it the result is the same. *)
Theorem CollapseWhitespace_run (s run rest : list ascii) (w : ascii) :
  isspace w = true ->
  forallb isspace run = true ->
  CollapseWhitespace (s ++ w :: run ++ rest)
  = CollapseWhitespace (s ++ w :: rest).
Proof.
  intros Hw Hrun. rewrite !CollapseWhitespace_collapse_from.
  change (s ++ w :: run ++ rest) with (s ++ [w] ++ run ++ rest).
  change (s ++ w :: rest) with (s ++ [w] ++ rest).
  rewrite !app_assoc, (collapse_from_app (s ++ [w]) rest).
  rewrite <- app_assoc, (collapse_from_app (s ++ [w]) (run ++ rest)).
  rewrite ends_in_space_snoc, Hw. f_equal.
  rewrite collapse_from_app, (collapse_from_spaces run Hrun).
  cbn [app]. f_equal. unfold ends_in_space.
  destruct (rev run) as [|d r] eqn:Er; [reflexivity|].
  assert (Hin : In d run).
  { apply in_rev. rewrite Er. left. reflexivity. }
  rewrite forallb_forall in Hrun. exact (Hrun d Hin).
Qed.

End CollapseWhitespace.

Lemma CollapseWhitespace_after_word_witness :
  CollapseWhitespace isspace_C
    (list_ascii_of_string " a" ++ "b"%char :: " "%char
       :: list_ascii_of_string "  c ")
  = CollapseWhitespace isspace_C (list_ascii_of_string " a" ++ ["b"%char])
    ++ " "%char :: CollapseWhitespace isspace_C (list_ascii_of_string "  c ").
Proof.
  apply (CollapseWhitespace_after_word isspace_C); reflexivity.
Defined.

Lemma CollapseWhitespace_run_witness :
  CollapseWhitespace isspace_C
    (list_ascii_of_string "a" ++ " "%char
       :: list_ascii_of_string "   " ++ list_ascii_of_string "b")
  = CollapseWhitespace isspace_C
      (list_ascii_of_string "a" ++ " "%char :: list_ascii_of_string "b").
Proof.
  apply (CollapseWhitespace_run isspace_C); reflexivity.
Defined.

End Collapse.

(** * [mjlib/io/repeating_timer.cc] *)

(** The timer's decisions, with the clock reading ([io::Now]) as an
    argument and the calls on the deadline timer and the service recorded
    in [log].  Times and durations are tick counts; an expiry that
    [is_special] (the state of a timer nobody has set) is [None]; a
    callback is identified by a number, the empty callback is [None]. *)
Module Timer.

Definition error_code := Z.

(** [boost::asio::error::operation_aborted] *)
Definition operation_aborted : error_code := 125.

Inductive Call :=
| ExpiresAt (t : Z)                              (* timer_.expires_at (t) *)
| AsyncWait                                      (* timer_.async_wait (HandleTimer) *)
| TimerCancel                                    (* timer_.cancel () *)
| Post (callback : option nat) (ec : error_code). (* service_.post (bind (callback, ec)) *)

Record RepeatingTimer := {
  period_ : Z;
  callback_ : option nat;
  timer_ : option Z;
  log : list Call
}.

Definition fresh : RepeatingTimer :=
  {| period_ := 0; callback_ := None; timer_ := None; log := [] |}.

Definition expires_at (t : Z) (st : RepeatingTimer) : RepeatingTimer :=
  {| period_ := period_ st; callback_ := callback_ st;
     timer_ := Some t; log := log st ++ [ExpiresAt t] |}.

Definition call (c : Call) (st : RepeatingTimer) : RepeatingTimer :=
  {| period_ := period_ st; callback_ := callback_ st;
     timer_ := timer_ st; log := log st ++ [c] |}.

Definition StartInternal (now : Z) (st : RepeatingTimer) : RepeatingTimer :=
  let last_expires := timer_ st in
  let st :=
    match last_expires with
    | None => expires_at (now + period_ st) st
    | Some last_expires =>
        let next := last_expires + period_ st in
        if next <? now
        then
          let st := call (Post (callback_ st) operation_aborted) st in
          let next := now + period_ st in
          expires_at next st
        else expires_at next st
    end in
  call AsyncWait st.

Definition start (now : Z) (period : Z) (callback : option nat)
    (st : RepeatingTimer) : RepeatingTimer :=
  StartInternal now
    {| period_ := period; callback_ := callback;
       timer_ := timer_ st; log := log st |}.

Definition cancel (st : RepeatingTimer) : RepeatingTimer :=
  call TimerCancel
    {| period_ := period_ st; callback_ := None;
       timer_ := timer_ st; log := log st |}.

Definition HandleTimer (now : Z) (ec : error_code) (st : RepeatingTimer)
  : RepeatingTimer :=
  match callback_ st with
  | None => st
  | Some _ => call (Post (callback_ st) ec) (StartInternal now st)
  end.

(** A run of timer completions: each with the clock reading at which it
    is handled and the error code it carries. *)
Definition fire (st : RepeatingTimer) (f : Z * error_code) : RepeatingTimer :=
  HandleTimer (fst f) (snd f) st.

Definition posts (l : list Call) : list Call :=
  filter (fun c => match c with Post _ _ => true | _ => false end) l.

(** Every completion is handled no later than one period after the
    expiry it was armed for. *)
Fixpoint on_time (expiry period : Z) (firings : list (Z * error_code))
  : Prop :=
  match firings with
  | [] => True
  | f :: rest => fst f <= expiry + period /\ on_time (expiry + period) period rest
  end.

Lemma posts_app (l1 l2 : list Call) : posts (l1 ++ l2) = posts l1 ++ posts l2.
Proof. apply filter_app. Qed.

(** X8.  With a period that is not negative, [StartInternal] never arms
    the timer for a time before the clock reading, whatever the previous
    expiry was; [start] and a handled completion both arm it that way. *)
Theorem StartInternal_not_in_past (now : Z) (st : RepeatingTimer) :
  0 <= period_ st ->
  exists t,
    timer_ (StartInternal now st) = Some t /\ now <= t
    /\ (forall ec cb, callback_ st = Some cb ->
          timer_ (HandleTimer now ec st) = Some t)
    /\ (forall cb, timer_ (start now (period_ st) cb st) = Some t).
Proof.
  intros Hp. unfold HandleTimer, start, StartInternal.
  destruct (timer_ st) as [last|] eqn:El; cbn [timer_ period_ callback_].
  - destruct (Z.ltb_spec (last + period_ st) now) as [Hl|Hl].
    + exists (now + period_ st). split; [reflexivity|]. split; [lia|].
      split; [intros ec cb ->; reflexivity | reflexivity].
    + exists (last + period_ st). split; [reflexivity|]. split; [lia|].
      split; [intros ec cb ->; reflexivity | reflexivity].
  - exists (now + period_ st). split; [reflexivity|]. split; [lia|].
    split; [intros ec cb ->; reflexivity | reflexivity].
Qed.

Lemma HandleTimer_on_time (now : Z) (ec : error_code) (st : RepeatingTimer)
    (cb : nat) (e : Z) :
  callback_ st = Some cb -> timer_ st = Some e -> now <= e + period_ st ->
  HandleTimer now ec st
  = {| period_ := period_ st; callback_ := Some cb;
       timer_ := Some (e + period_ st);
       log := log st
              ++ [ExpiresAt (e + period_ st); AsyncWait; Post (Some cb) ec] |}.
Proof.
  intros Hc He Hn. unfold HandleTimer, StartInternal. rewrite Hc, He.
  replace (e + period_ st <? now) with false
    by (symmetry; apply Z.ltb_ge; lia).
  unfold call, expires_at. cbn [period_ callback_ timer_ log].
  rewrite Hc, <- !app_assoc. reflexivity.
Qed.

(** X9.  No drift: as long as every completion is handled within one
    period of its expiry, the timer is re-armed at exact multiples of the
    period from the first expiry, however late within the period each
    one was handled, and the callback is posted once per completion,
    with that completion's error code, in order. *)
Theorem on_time_firings_keep_cadence (firings : list (Z * error_code)) :
  forall (st : RepeatingTimer) (cb : nat) (e : Z),
    callback_ st = Some cb ->
    timer_ st = Some e ->
    on_time e (period_ st) firings ->
    let st' := fold_left fire firings st in
    timer_ st' = Some (e + period_ st * Z.of_nat (length firings))
    /\ posts (log st')
       = posts (log st) ++ map (fun f => Post (Some cb) (snd f)) firings
    /\ callback_ st' = Some cb
    /\ period_ st' = period_ st.
Proof.
  induction firings as [|[now ec] firings IH]; intros st cb e Hc He Hon.
  - cbn. rewrite He, app_nil_r. repeat split; [f_equal; lia | exact Hc].
  - cbn [on_time fst] in Hon. destruct Hon as [Hnow Hon].
    cbn [fold_left]. cbv zeta.
    pose proof (HandleTimer_on_time now ec st cb e Hc He Hnow) as Hf.
    change (HandleTimer now ec st) with (fire st (now, ec)) in Hf.
    rewrite Hf.
    match goal with
    | |- context [fold_left fire firings ?s] =>
        specialize (IH s cb (e + period_ st) eq_refl eq_refl Hon)
    end.
    cbn [period_ log] in IH. cbv zeta in IH.
    destruct IH as (Ht & Hp & Hcb & Hper).
    split; [|split; [|split]].
    + rewrite Ht. f_equal. cbn [length]. lia.
    + rewrite Hp, posts_app. cbn [posts filter map app snd].
      rewrite <- app_assoc. reflexivity.
    + exact Hcb.
    + exact Hper.
Qed.

(** X10.  A completion handled more than one period after its expiry,
    by however many periods, makes the timer post the callback once with
    [operation_aborted], restart the cadence one period after the clock
    reading, and then post the callback with the completion's error
    code. *)
Theorem late_firing_reports_one_skip (now : Z) (ec : error_code)
    (st : RepeatingTimer) (cb : nat) (e : Z) :
  callback_ st = Some cb ->
  timer_ st = Some e ->
  e + period_ st < now ->
  timer_ (HandleTimer now ec st) = Some (now + period_ st)
  /\ log (HandleTimer now ec st)
     = log st
       ++ [Post (Some cb) operation_aborted; ExpiresAt (now + period_ st);
           AsyncWait; Post (Some cb) ec].
Proof.
  intros Hc He Hl. unfold HandleTimer, StartInternal. rewrite Hc, He.
  replace (e + period_ st <? now) with true
    by (symmetry; apply Z.ltb_lt; lia).
  unfold call, expires_at. cbn [period_ callback_ timer_ log].
  rewrite ?Hc, <- ?app_assoc. split; reflexivity.
Qed.

Lemma fire_cancelled (firings : list (Z * error_code)) :
  forall st, callback_ st = None -> fold_left fire firings st = st.
Proof.
  induction firings as [|f firings IH]; intros st Hc; [reflexivity|].
  cbn [fold_left]. unfold fire at 2. unfold HandleTimer. rewrite Hc.
  apply IH. exact Hc.
Qed.

(** X11.  After [cancel], completions of the timer, whatever their
    number, times and error codes, change nothing: the callback is not
    posted and the timer is not armed again. *)
Theorem cancel_stops_the_timer (firings : list (Z * error_code))
    (st : RepeatingTimer) :
  fold_left fire firings (cancel st) = cancel st
  /\ log (cancel st) = log st ++ [TimerCancel]
  /\ timer_ (cancel st) = timer_ st.
Proof.
  split; [apply fire_cancelled; reflexivity|]. split; reflexivity.
Qed.

Lemma StartInternal_not_in_past_witness :
  exists t,
    timer_ (StartInternal 100 (start 0 10 (Some 1%nat) fresh)) = Some t
    /\ 100 <= t
    /\ (forall ec cb,
          callback_ (start 0 10 (Some 1%nat) fresh) = Some cb ->
          timer_ (HandleTimer 100 ec (start 0 10 (Some 1%nat) fresh))
          = Some t)
    /\ (forall cb,
          timer_ (start 100 (period_ (start 0 10 (Some 1%nat) fresh)) cb
                    (start 0 10 (Some 1%nat) fresh)) = Some t).
Proof.
  apply (StartInternal_not_in_past 100 (start 0 10 (Some 1%nat) fresh)).
  vm_compute. discriminate.
Defined.

Lemma on_time_firings_keep_cadence_witness :
  let st := start 0 10 (Some 1%nat) fresh in
  let firings := [(10, 0); (29, 0); (30, 7)] in
  let st' := fold_left fire firings st in
  timer_ st' = Some (10 + period_ st * Z.of_nat (length firings))
  /\ posts (log st')
     = posts (log st) ++ map (fun f => Post (Some 1%nat) (snd f)) firings
  /\ callback_ st' = Some 1%nat
  /\ period_ st' = period_ st.
Proof.
  apply (on_time_firings_keep_cadence [(10, 0); (29, 0); (30, 7)]
           (start 0 10 (Some 1%nat) fresh) 1%nat 10).
  - reflexivity.
  - reflexivity.
  - cbn. lia.
Defined.

Lemma late_firing_reports_one_skip_witness :
  timer_ (HandleTimer 95 0 (start 0 10 (Some 1%nat) fresh))
  = Some (95 + period_ (start 0 10 (Some 1%nat) fresh))
  /\ log (HandleTimer 95 0 (start 0 10 (Some 1%nat) fresh))
     = log (start 0 10 (Some 1%nat) fresh)
       ++ [Post (Some 1%nat) operation_aborted;
           ExpiresAt (95 + period_ (start 0 10 (Some 1%nat) fresh));
           AsyncWait; Post (Some 1%nat) 0].
Proof.
  apply (late_firing_reports_one_skip 95 0 (start 0 10 (Some 1%nat) fresh)
           1%nat 10).
  - reflexivity.
  - reflexivity.
  - vm_compute. reflexivity.
Defined.

End Timer.

(** * The stream pipe factory ([stream_pipe_factory.cc]) *)

(** The two halves of a pipe and the factory's map.  A handler is
    identified by a number; a [MutableBufferSequence] by its size, the
    bytes copied into it being recorded with the copy; a
    [ConstBufferSequence] by its bytes.  What is handed to
    [service_.post] is recorded in [posted], in order. *)
Module Pipe.

Definition error_code := Z.

(** [base::error_code ()] *)
Definition no_error : error_code := 0.

(** [boost::asio::error::operation_aborted] *)
Definition operation_aborted : error_code := 125.

Inductive Posted :=
| Copied (reader : nat) (data : list byte)
    (* boost::asio::buffer_copy into the buffers of the read of [reader] *)
| PostHandler (handler : nat) (ec : error_code) (n : nat).
    (* service_.post (std::bind (handler, ec, n)) *)

(** [HalfPipe]: [read_buffers_] with [read_handler_], and
    [write_buffers_] with [write_handler_], which are set and cleared
    together. *)
Record HalfPipe := {
  read_ : option (nat * nat);
  write_ : option (list byte * nat)
}.

Inductive Direction := A | B.

Definition flip (d : Direction) : Direction :=
  match d with A => B | B => A end.

(** [BidirectionalPipe]: each half has the other as its [other_]. *)
Record BidirectionalPipe := {
  direction_a_ : HalfPipe;
  direction_b_ : HalfPipe;
  posted : list Posted
}.

Definition idle_half : HalfPipe := {| read_ := None; write_ := None |}.

Definition idle : BidirectionalPipe :=
  {| direction_a_ := idle_half; direction_b_ := idle_half; posted := [] |}.

Definition half (d : Direction) (p : BidirectionalPipe) : HalfPipe :=
  match d with A => direction_a_ p | B => direction_b_ p end.

Definition set_half (d : Direction) (h : HalfPipe) (p : BidirectionalPipe)
  : BidirectionalPipe :=
  match d with
  | A => {| direction_a_ := h; direction_b_ := direction_b_ p;
            posted := posted p |}
  | B => {| direction_a_ := direction_a_ p; direction_b_ := h;
            posted := posted p |}
  end.

Definition post (l : list Posted) (p : BidirectionalPipe)
  : BidirectionalPipe :=
  {| direction_a_ := direction_a_ p; direction_b_ := direction_b_ p;
     posted := posted p ++ l |}.

(** [HalfPipe::async_read_some] on the half [d]; [None] is the failed
    [BOOST_ASSERT (!read_handler_)]. *)
Definition async_read_some (d : Direction) (buffers : nat) (handler : nat)
    (p : BidirectionalPipe) : option BidirectionalPipe :=
  let self := half d p in
  let other := half (flip d) p in
  match read_ self with
  | Some _ => None
  | None =>
      if (buffers =? 0)%nat
      then Some (post [PostHandler handler no_error 0] p)
      else
        match write_ other with
        | Some (data, write_handler) =>
            let written := Nat.min buffers (length data) in
            Some (set_half (flip d)
                    {| read_ := read_ other; write_ := None |}
                    (post [Copied handler (firstn written data);
                           PostHandler write_handler no_error written;
                           PostHandler handler no_error written] p))
        | None =>
            Some (set_half d
                    {| read_ := Some (buffers, handler);
                       write_ := write_ self |} p)
        end
  end.

(** [HalfPipe::async_write_some] on the half [d]; [None] is the failed
    [BOOST_ASSERT (!write_handler_)]. *)
Definition async_write_some (d : Direction) (buffers : list byte)
    (handler : nat) (p : BidirectionalPipe) : option BidirectionalPipe :=
  let self := half d p in
  let other := half (flip d) p in
  match write_ self with
  | Some _ => None
  | None =>
      if (length buffers =? 0)%nat
      then Some (post [PostHandler handler no_error 0] p)
      else
        match read_ other with
        | Some (read_buffers, read_handler) =>
            let written := Nat.min read_buffers (length buffers) in
            Some (set_half (flip d)
                    {| read_ := None; write_ := write_ other |}
                    (post [Copied read_handler (firstn written buffers);
                           PostHandler read_handler no_error written;
                           PostHandler handler no_error written] p))
        | None =>
            Some (set_half d
                    {| read_ := read_ self;
                       write_ := Some (buffers, handler) |} p)
        end
  end.

(** [HalfPipe::cancel] on the half [d]. *)
Definition cancel (d : Direction) (p : BidirectionalPipe)
  : BidirectionalPipe :=
  let self := half d p in
  let p :=
    match read_ self with
    | Some (_, read_handler) =>
        set_half d {| read_ := None; write_ := write_ self |}
          (post [PostHandler read_handler operation_aborted 0] p)
    | None => p
    end in
  let self := half d p in
  match write_ self with
  | Some (_, write_handler) =>
      set_half d {| read_ := read_ self; write_ := None |}
        (post [PostHandler write_handler operation_aborted 0] p)
  | None => p
  end.

(** The calls a user of the two [HalfPipeRef]s can make. *)
Inductive Op :=
| Read (d : Direction) (buffers : nat) (handler : nat)
| Write (d : Direction) (buffers : list byte) (handler : nat)
| Cancel (d : Direction).

Definition step (p : BidirectionalPipe) (op : Op) : option BidirectionalPipe :=
  match op with
  | Read d buffers handler => async_read_some d buffers handler p
  | Write d buffers handler => async_write_some d buffers handler p
  | Cancel d => Some (cancel d p)
  end.

Fixpoint run (ops : list Op) (p : BidirectionalPipe)
  : option BidirectionalPipe :=
  match ops with
  | [] => Some p
  | op :: ops' =>
      match step p op with
      | Some p' => run ops' p'
      | None => None
      end
  end.

(** No read waits on one half while a write waits on the other, and a
    waiting operation has something to transfer. *)
Definition settled (p : BidirectionalPipe) : Prop :=
  forall d,
    (read_ (half d p) = None \/ write_ (half (flip d) p) = None)
    /\ (forall n h, read_ (half d p) = Some (n, h) -> n <> 0%nat)
    /\ (forall data h, write_ (half d p) = Some (data, h) -> data <> []).





(** *** The factory *)

(** [HalfPipeRef]: the shared parent ([None] when the pointer is null)
    and the half it names. *)
Record HalfPipeRef := { parent_ : option nat; pipe_ : Direction }.

(** [StreamPipeFactory::Impl]: the map, and the number of
    [BidirectionalPipe] objects made so far (the next one's identity). *)
Record StreamPipeFactory := {
  pipes_ : list (string * option nat);
  made : nat
}.

Definition empty_factory : StreamPipeFactory := {| pipes_ := []; made := 0 |}.

(** [std::map::count] *)
Definition count (key : string) (m : list (string * option nat)) : nat :=
  match PoolMap.find key m with Some _ => 1 | None => 0 end.

(** [std::map::insert]: an element with the key already there stays. *)
Definition insert (kv : string * option nat) (m : list (string * option nat))
  : list (string * option nat) :=
  match PoolMap.find (fst kv) m with Some _ => m | None => m ++ [kv] end.

(** [std::map::operator[]]: a missing key is added with a null
    pointer. *)
Definition index (key : string) (m : list (string * option nat))
  : option nat * list (string * option nat) :=
  match PoolMap.find key m with
  | Some v => (v, m)
  | None => (None, m ++ [(key, None)])
  end.

(** [StreamPipeFactory::GetStream] *)
Definition GetStream (key : string) (direction : Z) (f : StreamPipeFactory)
  : HalfPipeRef * StreamPipeFactory :=
  let f :=
    if negb (count key (pipes_ f) =? 0)%nat
    then {| pipes_ := insert (key, Some (made f)) (pipes_ f);
            made := S (made f) |}
    else f in
  let (parent, m) := index key (pipes_ f) in
  ({| parent_ := parent; pipe_ := if direction =? 0 then A else B |},
   {| pipes_ := m; made := made f |}).

Fixpoint GetStreams (calls : list (string * Z)) (f : StreamPipeFactory)
  : list HalfPipeRef * StreamPipeFactory :=
  match calls with
  | [] => ([], f)
  | (key, direction) :: calls' =>
      let (r, f') := GetStream key direction f in
      let (rs, f'') := GetStreams calls' f' in
      (r :: rs, f'')
  end.

(** *** Properties of the pipe *)

Ltac pipe_cases :=
  repeat match goal with
         | p : BidirectionalPipe |- _ => destruct p as [[? ?] [? ?] ?]
         | d : Direction |- _ => destruct d
         | x : option _ |- _ => destruct x as [[? ?]|]
         end.


Lemma step_settled (op : Op) (p p' : BidirectionalPipe) :
  settled p -> step p op = Some p' -> settled p'.
Proof.
  intros Hs E.
  pose proof (Hs A) as (HaW & HaR & HaD).
  pose proof (Hs B) as (HbW & HbR & HbD).
  destruct p as [[ra wa] [rb wb] l].
  cbn [half flip direction_a_ direction_b_ read_ write_] in *.
  destruct op as [d buffers handler | d buffers handler | d].
  - cbn [step] in E. unfold async_read_some in E.
    destruct d; cbn [half flip direction_a_ direction_b_ read_ write_] in E.
    + destruct ra as [[? ?]|]; [discriminate|].
      destruct (Nat.eqb_spec buffers 0) as [Hz|Hz].
      * inversion E; subst. intros [|]; cbn; repeat split; auto.
      * destruct wb as [[dw hw]|]; inversion E; subst;
          intros [|]; cbn; repeat split; auto; try discriminate;
          try (intros ? ? [= <- <-]; exact Hz).
    + destruct rb as [[? ?]|]; [discriminate|].
      destruct (Nat.eqb_spec buffers 0) as [Hz|Hz].
      * inversion E; subst. intros [|]; cbn; repeat split; auto.
      * destruct wa as [[dw hw]|]; inversion E; subst;
          intros [|]; cbn; repeat split; auto; try discriminate;
          try (intros ? ? [= <- <-]; exact Hz).
  - cbn [step] in E. unfold async_write_some in E.
    destruct d; cbn [half flip direction_a_ direction_b_ read_ write_] in E.
    + destruct wa as [[? ?]|]; [discriminate|].
      destruct (Nat.eqb_spec (length buffers) 0) as [Hz|Hz].
      * inversion E; subst. intros [|]; cbn; repeat split; auto.
      * assert (Hne : buffers <> []) by (intros ->; apply Hz; reflexivity).
        destruct rb as [[nr hr]|]; inversion E; subst;
          intros [|]; cbn; repeat split; auto; try discriminate;
          try (intros ? ? [= <- <-]; exact Hne).
    + destruct wb as [[? ?]|]; [discriminate|].
      destruct (Nat.eqb_spec (length buffers) 0) as [Hz|Hz].
      * inversion E; subst. intros [|]; cbn; repeat split; auto.
      * assert (Hne : buffers <> []) by (intros ->; apply Hz; reflexivity).
        destruct ra as [[nr hr]|]; inversion E; subst;
          intros [|]; cbn; repeat split; auto; try discriminate;
          try (intros ? ? [= <- <-]; exact Hne).
  - cbn [step] in E. inversion E; subst. unfold cancel.
    destruct d; cbn [half flip direction_a_ direction_b_ read_ write_].
    + destruct ra as [[? ?]|]; destruct wa as [[? ?]|];
        intros [|]; cbn; repeat split; auto; try discriminate.
    + destruct rb as [[? ?]|]; destruct wb as [[? ?]|];
        intros [|]; cbn; repeat split; auto; try discriminate.
Qed.

Lemma run_settled (ops : list Op) :
  forall p p', settled p -> run ops p = Some p' -> settled p'.
Proof.
  induction ops as [|op ops IH]; intros p p' Hs E; cbn [run] in E.
  - inversion E; subst. exact Hs.
  - destruct (step p op) as [p1|] eqn:E1; [|discriminate].
    exact (IH p1 p' (step_settled op p p1 Hs E1) E).
Qed.

Lemma idle_settled : settled idle.
Proof. intros [|]; cbn; repeat split; auto; discriminate. Qed.

(** X13.  Whatever reads, writes and cancels are made on the two halves
    of a new pipe, a read never waits on one half while a write waits on
    the other, and an operation that waits has a buffer that is not
    empty. *)
Theorem waiting_operations_never_face (ops : list Op) (p : BidirectionalPipe) :
  run ops idle = Some p -> settled p.
Proof. apply run_settled. exact idle_settled. Qed.





(** X15.  [cancel] on a half posts [operation_aborted] with count 0 to
    the read that waits there and then to the write that waits there,
    leaves the other half as it is, and frees the half: a second
    [cancel] posts nothing, and the next read and the next write on the
    half are accepted. *)
Theorem cancel_frees_the_half (d : Direction) (p : BidirectionalPipe) :
  posted (cancel d p)
  = posted p
    ++ match read_ (half d p) with
       | Some (_, h) => [PostHandler h operation_aborted 0]
       | None => []
       end
    ++ match write_ (half d p) with
       | Some (_, h) => [PostHandler h operation_aborted 0]
       | None => []
       end
  /\ half (flip d) (cancel d p) = half (flip d) p
  /\ half d (cancel d p) = idle_half
  /\ cancel d (cancel d p) = cancel d p
  /\ (forall buffers handler,
        async_read_some d buffers handler (cancel d p) <> None)
  /\ (forall buffers handler,
        async_write_some d buffers handler (cancel d p) <> None).
Proof.
  destruct p as [[ra wa] [rb wb] l]. unfold cancel.
  destruct d; cbn [half flip direction_a_ direction_b_ read_ write_].
  - destruct ra as [[? ?]|]; destruct wa as [[? ?]|];
      cbn [half flip set_half post direction_a_ direction_b_ read_ write_
             posted];
      rewrite <- ?app_assoc, ?app_nil_r;
      (repeat split; try reflexivity);
      intros buffers handler;
      unfold async_read_some, async_write_some;
      cbn [half flip direction_a_ direction_b_ read_ write_];
      destruct (_ =? 0)%nat; try discriminate;
      destruct rb as [[? ?]|]; destruct wb as [[? ?]|]; discriminate.
  - destruct rb as [[? ?]|]; destruct wb as [[? ?]|];
      cbn [half flip set_half post direction_a_ direction_b_ read_ write_
             posted];
      rewrite <- ?app_assoc, ?app_nil_r;
      (repeat split; try reflexivity);
      intros buffers handler;
      unfold async_read_some, async_write_some;
      cbn [half flip direction_a_ direction_b_ read_ write_];
      destruct (_ =? 0)%nat; try discriminate;
      destruct ra as [[? ?]|]; destruct wa as [[? ?]|]; discriminate.
Qed.

(** *** Properties of the factory *)

Definition all_null (m : list (string * option nat)) : Prop :=
  Forall (fun kv => snd kv = None) m.

Lemma find_all_null (key : string) (m : list (string * option nat)) v :
  all_null m -> PoolMap.find key m = Some v -> v = None.
Proof.
  intros Hn Hf. apply PoolMap.find_In in Hf.
  unfold all_null in Hn. rewrite Forall_forall in Hn.
  exact (Hn _ Hf).
Qed.

Lemma GetStream_null (key : string) (direction : Z) (f : StreamPipeFactory) :
  all_null (pipes_ f) ->
  parent_ (fst (GetStream key direction f)) = None
  /\ all_null (pipes_ (snd (GetStream key direction f)))
  /\ PoolMap.find key (pipes_ (snd (GetStream key direction f))) = Some None.
Proof.
  intros Hn. unfold GetStream, count, insert, index. cbn [fst].
  destruct (PoolMap.find key (pipes_ f)) as [v|] eqn:Ef;
    cbn [Nat.eqb negb pipes_ made]; rewrite Ef; cbn [fst snd parent_ pipes_].
  - pose proof (find_all_null key _ v Hn Ef) as ->.
    split; [reflexivity|]. split; [exact Hn | exact Ef].
  - split; [reflexivity|]. split.
    + apply Forall_app. split; [exact Hn | repeat constructor].
    + clear Hn. induction (pipes_ f) as [|[k e] m IH].
      * cbn. rewrite String.eqb_refl. reflexivity.
      * cbn [PoolMap.find app] in *.
        destruct (String.eqb k key); [discriminate | exact (IH Ef)].
Qed.

Lemma GetStreams_null (calls : list (string * Z)) :
  forall f,
    all_null (pipes_ f) ->
    Forall (fun r => parent_ r = None) (fst (GetStreams calls f))
    /\ all_null (pipes_ (snd (GetStreams calls f))).
Proof.
  induction calls as [|[key direction] calls IH]; intros f Hn.
  - split; [constructor | exact Hn].
  - cbn [GetStreams].
    destruct (GetStream_null key direction f Hn) as (Hp & Hn' & _).
    destruct (GetStream key direction f) as [r f'].
    cbn [fst snd] in Hp, Hn'.
    destruct (IH f' Hn') as [Hrs Hf].
    destruct (GetStreams calls f') as [rs f''].
    cbn [fst snd] in *. split; [constructor; assumption | exact Hf].
Qed.

(** X16.  [GetStream] never hands out a pipe: a key that is not in the
    map is entered with a null pointer, and the test that guards the
    insertion of a new [BidirectionalPipe] holds only for keys that are
    already in the map, where [insert] changes nothing.  So after any
    calls on a new factory every stream returned has a null parent and
    every key asked for maps to a null pointer. *)
Theorem GetStream_never_makes_a_pipe (calls : list (string * Z)) :
  Forall (fun r => parent_ r = None) (fst (GetStreams calls empty_factory))
  /\ all_null (pipes_ (snd (GetStreams calls empty_factory)))
  /\ (forall key direction,
        PoolMap.find key
          (pipes_ (snd (GetStream key direction
                          (snd (GetStreams calls empty_factory)))))
        = Some None).
Proof.
  destruct (GetStreams_null calls empty_factory) as [Hr Hn];
    [constructor|].
  split; [exact Hr|]. split; [exact Hn|].
  intros key direction. apply GetStream_null. exact Hn.
Qed.


Lemma waiting_operations_never_face_witness :
  settled (set_half A {| read_ := Some (4%nat, 1%nat); write_ := None |} idle).
Proof.
  apply (waiting_operations_never_face [Read A 4 1%nat]). reflexivity.
Defined.


End Pipe.

(** * More on the engine of [persistent_config.cc] *)

Section Engine.

Context {V : Type}.
Variable CalculateCrc : list byte -> Z.
Variable kMaxStringSize : Z.

Implicit Types (impl : Impl V) (m : ElementMap V).

(** The [updated] calls of a trace. *)
Definition updates (t : list Event) : list Event :=
  filter (fun e => match e with Updated _ => true | _ => false end) t.

Lemma updates_app (t1 t2 : list Event) :
  updates (t1 ++ t2) = updates t1 ++ updates t2.
Proof. apply filter_app. Qed.

Lemma updates_enumerate_visits (response : Response)
    (l : list (string * Element V)) :
  updates (enumerate_visits response l) = [].
Proof.
  induction l as [|[name element] l IH]; [reflexivity|].
  cbn [enumerate_visits updates filter].
  destruct (_ =? 0); [exact IH | reflexivity].
Qed.

Lemma updates_get_calls (response : Response) (group field : string)
    (element : Element V) :
  updates (get_calls response group field element) = [].
Proof.
  unfold get_calls.
  destruct (Handler.Read _ _ _) as [err [error|]];
    [destruct (negb (error =? 0))|]; destruct (negb (err =? 0));
    reflexivity.
Qed.

Lemma updates_FlashByte (data : list byte) :
  updates (map FlashByte data) = [].
Proof. induction data as [|b data IH]; [reflexivity | exact IH]. Qed.

Lemma Get_elements (field : string) (response : Response) impl :
  elements_ (Get field response impl) = elements_ impl.
Proof.
  unfold Get. destruct (Tokenizer.next _) as [group tokenizer].
  destruct (PoolMap.find group (elements_ impl)) as [element|];
    [|reflexivity].
  destruct (Handler.Read _ _ _) as [err [error|]];
    [destruct (negb (error =? 0))|]; destruct (negb (err =? 0));
    reflexivity.
Qed.

Lemma Enumerate_outcome (response : Response) impl :
  exists impl',
    Enumerate response impl = Some impl'
    /\ trace impl'
       = trace impl ++ enumerate_visits response (elements_ impl)
    /\ elements_ impl' = elements_ impl.
Proof.
  unfold Enumerate.
  match goal with
  | |- context [EnumerateCallback ?f 0 ?i] =>
      destruct (EnumerateCallback_runs f i) as (impl' & E & T & El)
  end.
  { cbn [current_enumerate_index_ elements_ skipn]. lia. }
  exists impl'. split; [exact E|]. split; [exact T | exact El].
Qed.

(** X17.  A command line whose verb is not [set], [load] or [default]
    (so [enumerate], [get], [write] and every unknown verb) changes no
    group's value and fires no update callback. *)
Theorem other_commands_change_no_value (info : list byte) (command : string)
    (response : Response) impl impl' :
  fst (split_first " " command) <> "set"%string ->
  fst (split_first " " command) <> "load"%string ->
  fst (split_first " " command) <> "default"%string ->
  Command CalculateCrc kMaxStringSize info command response impl
  = Some impl' ->
  elements_ impl' = elements_ impl
  /\ updates (trace impl') = updates (trace impl).
Proof.
  intros Hs Hl Hd. rewrite Command_dispatch. cbv zeta.
  apply String.eqb_neq in Hs, Hl, Hd. rewrite Hs, Hl, Hd.
  destruct (String.eqb _ "enumerate").
  { destruct (Enumerate_outcome response impl) as (i & E & T & El).
    rewrite E. intros [= <-]. split; [exact El|].
    rewrite T, updates_app, updates_enumerate_visits. apply app_nil_r. }
  destruct (String.eqb _ "get").
  { intros [= <-]. split; [apply Get_elements|].
    rewrite Get_trace, updates_app.
    destruct (PoolMap.find _ _);
      [rewrite updates_get_calls|]; apply app_nil_r. }
  destruct (String.eqb _ "write").
  { intros [= <-]. split; [reflexivity|].
    rewrite Write_trace, !updates_app, updates_FlashByte. apply app_nil_r. }
  intros [= <-]. split; [reflexivity|].
  cbn [UnknownCommand WriteMessage emit trace]. rewrite updates_app.
  apply app_nil_r.
Qed.

Lemma Load_handlers (info : list byte) (response : Response) impl impl' :
  Load CalculateCrc kMaxStringSize info response impl = Some impl' ->
  handlers (elements_ impl') = handlers (elements_ impl).
Proof.
  unfold Load, DoLoad, DoLoad_scan.
  destruct (DoLoad_loop _ _ _ _) as [[stop impl_s]|] eqn:Es; [|discriminate].
  intros [= <-]. apply DoLoad_loop_related in Es. destruct Es as [Hh _].
  cbn [WriteOK WriteMessage emit elements_].
  rewrite notify_all_elements. exact Hh.
Qed.

(** X18.  No command line registers, removes, reorders or rebinds a
    group: after every command the registry holds the same names, in the
    same order, with the same handlers. *)
Theorem commands_keep_the_registry (info : list byte) (command : string)
    (response : Response) impl impl' :
  Command CalculateCrc kMaxStringSize info command response impl
  = Some impl' ->
  handlers (elements_ impl') = handlers (elements_ impl).
Proof.
  rewrite Command_dispatch. cbv zeta.
  destruct (String.eqb _ "enumerate").
  { destruct (Enumerate_outcome response impl) as (i & E & _ & El).
    rewrite E. intros [= <-]. rewrite El. reflexivity. }
  destruct (String.eqb _ "get").
  { intros [= <-]. rewrite Get_elements. reflexivity. }
  destruct (String.eqb _ "set").
  { intros [= <-]. rewrite Set_elements.
    destruct (PoolMap.find _ _); [|reflexivity].
    apply handlers_update. reflexivity. }
  destruct (String.eqb _ "load"); [apply Load_handlers|].
  destruct (String.eqb _ "write"); [intros [= <-]; reflexivity|].
  destruct (String.eqb _ "default");
    [intros [= <-]; apply handlers_Default|].
  intros [= <-]. reflexivity.
Qed.

(** X19.  The [default] command puts every group at its handler's
    default, calling [SetDefault] once per group in registry order, and
    then replies [OK]; it fires no update callback and makes no call on
    the flash. *)
Theorem default_command_outcome (info : list byte) (response : Response)
    impl :
  exists impl',
    Command CalculateCrc kMaxStringSize info "default" response impl
    = Some impl'
    /\ trace impl'
       = trace impl
         ++ map HandlerSetDefault (PoolMap.keys (elements_ impl))
         ++ [AsyncWrite response ("OK" ++ CRLF)]
    /\ PoolMap.keys (elements_ impl') = PoolMap.keys (elements_ impl)
    /\ forall name,
         PoolMap.find name (elements_ impl')
         = option_map
             (fun e => {| serializable := serializable e;
                          item := Handler.SetDefault (serializable e)
                                    (item e) |})
             (PoolMap.find name (elements_ impl)).
Proof.
  exists (Default response impl). split; [reflexivity|].
  unfold Default. cbn [WriteOK WriteMessage emit set_elements elements_ trace].
  split; [|split].
  - unfold PoolMap.keys. rewrite map_map, <- app_assoc. reflexivity.
  - unfold PoolMap.keys. rewrite map_map. reflexivity.
  - intros name.
    apply (find_map_values
             (fun e => {| serializable := serializable e;
                          item := Handler.SetDefault (serializable e)
                                    (item e) |})).
Qed.

(** X20.  A [set] line touches one group only: every group with another
    name than the one the line names keeps its value, whatever the
    handler does and returns. *)
Theorem set_touches_one_group (info : list byte) (command : string)
    (response : Response) impl impl' (other : string) :
  fst (split_first " " command) = "set"%string ->
  other <> fst (split_first "." (snd (split_first " " command))) ->
  Command CalculateCrc kMaxStringSize info command response impl
  = Some impl' ->
  PoolMap.find other (elements_ impl') = PoolMap.find other (elements_ impl).
Proof.
  intros Hv Hne. rewrite (Command_set _ _ _ _ _ _ Hv). intros [= <-].
  rewrite Set_elements.
  destruct (PoolMap.find _ (elements_ impl)); [|reflexivity].
  apply PoolMap.find_update_other. exact Hne.
Qed.

Lemma find_app_new {E : Type} (key : string) (e : E)
    (l : list (string * E)) :
  PoolMap.find key l = None -> PoolMap.find key (l ++ [(key, e)]) = Some e.
Proof.
  induction l as [|[k x] l IH]; cbn [app PoolMap.find].
  - rewrite String.eqb_refl. reflexivity.
  - destruct (String.eqb k key); [discriminate | exact IH].
Qed.

Lemma find_app_other {E : Type} (key other : string) (e : E)
    (l : list (string * E)) :
  other <> key ->
  PoolMap.find other (l ++ [(key, e)]) = PoolMap.find other l.
Proof.
  intros Hne. induction l as [|[k x] l IH]; cbn [app PoolMap.find].
  - destruct (String.eqb_spec key other); [congruence | reflexivity].
  - destruct (String.eqb k other); [reflexivity | exact IH].
Qed.

(** X21.  [RegisterDetail] fails exactly when the name is already
    registered or the registry holds [kMaxSize] groups.  When it
    succeeds the new group is the last of the registry and is found
    under its name, every other name is found as before, and no call is
    made. *)
Theorem RegisterDetail_outcome (name : string) (base : Handler.t V) (v : V)
    impl :
  (RegisterDetail name base v impl = None
   <-> PoolMap.find name (elements_ impl) <> None
       \/ (kMaxSize <= length (elements_ impl))%nat)
  /\ forall impl',
       RegisterDetail name base v impl = Some impl' ->
       elements_ impl'
       = elements_ impl ++ [(name, {| serializable := base; item := v |})]
       /\ PoolMap.find name (elements_ impl')
          = Some {| serializable := base; item := v |}
       /\ (forall other,
             other <> name ->
             PoolMap.find other (elements_ impl')
             = PoolMap.find other (elements_ impl))
       /\ trace impl' = trace impl.
Proof.
  unfold RegisterDetail, PoolMap.insert. cbn [fst].
  destruct (PoolMap.find name (elements_ impl)) as [e|] eqn:Ef.
  - split; [|discriminate]. split; [intros _; left; discriminate | reflexivity].
  - destruct (Nat.ltb_spec (length (elements_ impl)) kMaxSize) as [Hl|Hl].
    + split.
      * split; [discriminate|]. intros [H|H]; [congruence | lia].
      * intros impl' [= <-]. cbn [set_elements elements_ trace].
        split; [reflexivity|]. split; [apply find_app_new; exact Ef|].
        split; [|reflexivity].
        intros other Hne. apply find_app_other. exact Hne.
    + split; [|discriminate].
      split; [intros _; right; exact Hl | reflexivity].
Qed.

(** *** Loading a region that holds no record *)

Lemma DoLoad_body_stops (s : BufferReadStream.t) :
  decode_header kMaxStringSize s = None ->
  exists s',
    (length s' <= length s)%nat
    /\ forall impl,
         DoLoad_body CalculateCrc kMaxStringSize (s, impl)
         = (Break, (s', impl)).
Proof.
  unfold decode_header, DoLoad_body.
  destruct (Format.ReadVaruint s) as [[name_size|] s1] eqn:Ev.
  2:{ intros _. exists s1. split; [|reflexivity].
      pose proof (Format.ReadVaruint_loop_length 10 0 0 s) as Hl.
      unfold Format.ReadVaruint in Ev. rewrite Ev in Hl. exact Hl. }
  assert (Hs1 : (length s1 <= length s)%nat).
  { pose proof (Format.ReadVaruint_loop_length 10 0 0 s) as Hl.
    unfold Format.ReadVaruint in Ev. rewrite Ev in Hl. exact Hl. }
  destruct ((name_size =? 0) || _).
  { intros _. exists s1. split; [exact Hs1 | reflexivity]. }
  pose proof (BufferReadStream.ignore_length name_size s1) as Hi.
  destruct (_ <? 8).
  { intros _. eexists. split; [|reflexivity]. lia. }
  destruct (Format.Read_u32 _) as [[crc|] s3] eqn:E3;
    destruct (Format.Read_u32 s3) as [[len|] s4] eqn:E4; try discriminate;
    intros _; exists s4; (split; [|reflexivity]).
  - apply Read_u32_shorter in E3.
    unfold Format.Read_u32 in E4.
    destruct s3 as [|? [|? [|? [|? ?]]]]; inversion E4; subst;
      cbn [length]; lia.
  - unfold Format.Read_u32 in E3, E4.
    destruct (BufferReadStream.ignore name_size s1)
      as [|? [|? [|? [|? ?]]]]; inversion E3; subst;
      inversion E4; subst; cbn [length]; lia.
  - unfold Format.Read_u32 in E3, E4.
    destruct (BufferReadStream.ignore name_size s1)
      as [|? [|? [|? [|? ?]]]]; inversion E3; subst;
      inversion E4; subst; cbn [length]; lia.
Qed.

Lemma DoLoad_no_record (info : list byte) impl :
  decode_header kMaxStringSize info = None ->
  DoLoad CalculateCrc kMaxStringSize info impl = Some (notify_all impl).
Proof.
  intros Eh. destruct (DoLoad_body_stops info Eh) as (s' & _ & Hb).
  unfold DoLoad, DoLoad_scan. cbn [DoLoad_loop]. rewrite Hb. reflexivity.
Qed.

Lemma ReadVaruint_loop_erased (fuel : nat) :
  forall n pos result,
    fst (Format.ReadVaruint_loop fuel pos result (repeat xff n)) = None.
Proof.
  induction fuel as [|fuel IH]; intros n pos result; [reflexivity|].
  destruct n as [|n]; [reflexivity|].
  cbn [repeat Format.ReadVaruint_loop].
  change (Z.land (Bytes.Z_of_byte xff) 128 =? 0) with false.
  apply IH.
Qed.

Lemma decode_header_erased (n : nat) :
  decode_header kMaxStringSize (repeat xff n) = None.
Proof.
  unfold decode_header, Format.ReadVaruint.
  pose proof (ReadVaruint_loop_erased 10 n 0 0) as H.
  destruct (Format.ReadVaruint_loop 10 0 0 (repeat xff n)) as [[v|] s1];
    [discriminate | reflexivity].
Qed.

(** X22.  Over a region that is empty, that holds only 0xFF bytes (an
    erased flash), or that starts with a zero byte, [DoLoad] applies
    nothing: no handler is called and no value changes, and the update
    callback of every group is still invoked, once, in registry
    order. *)
Theorem DoLoad_blank_region impl :
  (forall n,
     DoLoad CalculateCrc kMaxStringSize (repeat xff n) impl
     = Some (notify_all impl))
  /\ (forall rest,
        DoLoad CalculateCrc kMaxStringSize (x00 :: rest) impl
        = Some (notify_all impl))
  /\ elements_ (notify_all impl) = elements_ impl
  /\ trace (notify_all impl)
     = trace impl ++ map Updated (PoolMap.keys (elements_ impl)).
Proof.
  split; [|split; [|split]].
  - intros n. apply DoLoad_no_record. apply decode_header_erased.
  - intros rest. apply DoLoad_no_record. reflexivity.
  - apply notify_all_elements.
  - apply notify_all_trace.
Qed.

(** *** How much a scan can do *)

Lemma ReadVaruint_loop_nonneg (fuel : nat) :
  forall pos result s v s',
    0 <= result ->
    Format.ReadVaruint_loop fuel pos result s = (Some v, s') -> 0 <= v.
Proof.
  induction fuel as [|fuel IH]; intros pos result s v s' Hr E;
    cbn [Format.ReadVaruint_loop] in E; [discriminate|].
  destruct s as [|b t]; [discriminate|].
  assert (Hn : 0 <= Z.lor result
                      (Bytes.wrap 64
                         (Z.shiftl (Z.land (Bytes.Z_of_byte b) 127) pos))).
  { apply Z.lor_nonneg. split; [exact Hr|].
    apply (wrap_range 64). lia. }
  destruct (_ =? 0).
  - inversion E; subst. exact Hn.
  - exact (IH _ _ _ _ _ Hn E).
Qed.

Lemma decode_header_consumes (s : BufferReadStream.t) name crc len s4 :
  decode_header kMaxStringSize s = Some (name, crc, len, s4) ->
  (length s4 + 10 <= length s)%nat.
Proof.
  unfold decode_header.
  destruct (Format.ReadVaruint s) as [[name_size|] s1] eqn:Ev; [|discriminate].
  pose proof (ReadVaruint_loop_nonneg _ _ _ _ _ _ (Z.le_refl 0) Ev) as Hnn.
  apply Format.ReadVaruint_loop_consumes in Ev.
  destruct (Z.eqb_spec name_size 0) as [Hz|Hz]; [discriminate|].
  cbn [orb]. destruct (_ >=? _) eqn:Ek; [discriminate|].
  destruct (Z.ltb_spec
              (BufferReadStream.remaining
                 (BufferReadStream.ignore name_size s1)) 8) as [Hr|Hr];
    [discriminate|].
  destruct (Format.Read_u32 _) as [[crc'|] s3] eqn:E3; [|discriminate].
  destruct (Format.Read_u32 s3) as [[len'|] s4'] eqn:E4; [|discriminate].
  intros [= _ _ _ <-].
  assert (H3 : (length s3 + 4
                = length (BufferReadStream.ignore name_size s1))%nat).
  { unfold Format.Read_u32 in E3.
    destruct (BufferReadStream.ignore name_size s1)
      as [|? [|? [|? [|? ?]]]]; inversion E3; subst. cbn [length]. lia. }
  assert (H4 : (length s4' + 4 = length s3)%nat).
  { unfold Format.Read_u32 in E4.
    destruct s3 as [|? [|? [|? [|? ?]]]]; inversion E4; subst.
    cbn [length]. lia. }
  unfold BufferReadStream.remaining, BufferReadStream.ignore in *.
  rewrite length_skipn in *.
  assert (Hn : (1 <= Z.to_nat name_size)%nat) by lia.
  lia.
Qed.

Lemma DoLoad_loop_bounded (fuel : nat) :
  forall (s : BufferReadStream.t) impl s' impl',
    DoLoad_loop CalculateCrc kMaxStringSize fuel (s, impl)
    = Some (s', impl') ->
    exists applied,
      trace impl' = trace impl ++ map HandlerReadBinary applied
      /\ (10 * length applied + length s' <= length s)%nat.
Proof.
  induction fuel as [|fuel IH]; intros s impl s' impl' E; [discriminate|].
  cbn [DoLoad_loop] in E.
  destruct (decode_header kMaxStringSize s)
    as [[[[name crc] len] s4]|] eqn:Eh.
  - rewrite (DoLoad_body_Continue _ _ _ _ _ _ _ _ Eh) in E.
    pose proof (decode_header_consumes _ _ _ _ _ Eh) as Hc.
    unfold dispatch_record in E.
    pose proof (BufferReadStream.ignore_length len s4) as Hi.
    destruct (PoolMap.find name (elements_ impl)) as [element|].
    + destruct (negb _).
      * apply IH in E. destruct E as (applied & T & Hb).
        exists applied. split; [exact T | lia].
      * destruct (Handler.ReadBinary _ _ _) as [[v n] e].
        apply IH in E. destruct E as (applied & T & Hb).
        exists (name :: applied). split.
        -- rewrite T. cbn [emit trace set_item set_elements map].
           rewrite <- app_assoc. reflexivity.
        -- rewrite length_skipn in Hb. cbn [length]. lia.
    + apply IH in E. destruct E as (applied & T & Hb).
      exists applied. split; [exact T | lia].
  - destruct (DoLoad_body_stops s Eh) as (s1 & Hl & Hb).
    rewrite Hb in E. inversion E; subst.
    exists []. split; [symmetry; apply app_nil_r | cbn [length]; lia].
Qed.

(** X23.  A record costs the scan at least ten bytes of the region: over
    a region of [n] bytes [DoLoad] makes at most [n / 10] [ReadBinary]
    calls before it stops. *)
Theorem DoLoad_scan_bounded (info : list byte) impl :
  exists stop impl_s applied,
    DoLoad_scan CalculateCrc kMaxStringSize info impl = Some (stop, impl_s)
    /\ trace impl_s = trace impl ++ map HandlerReadBinary applied
    /\ (10 * length applied + length stop <= length info)%nat.
Proof.
  destruct (DoLoad_scan_total CalculateCrc kMaxStringSize info impl)
    as [[stop impl_s] Es].
  destruct (DoLoad_loop_bounded _ _ _ _ _ Es) as (applied & T & Hb).
  exists stop, impl_s, applied. split; [exact Es|]. split; assumption.
Qed.

(** *** Loading twice *)

(** The result of [ReadBinary] (value, bytes taken, return value) does
    not depend on the value the group held before. *)
Definition value_independent (hs : list (string * Handler.t V)) : Prop :=
  forall name h,
    In (name, h) hs ->
    forall v v' s, Handler.ReadBinary h v s = Handler.ReadBinary h v' s.

(** Applying a record: the handler call and the value it leaves. *)
Definition apply_update impl (u : string * V) : Impl V :=
  emit [HandlerReadBinary (fst u)] (set_item (fst u) (snd u) impl).

Definition apply_updates (U : list (string * V)) impl : Impl V :=
  fold_left apply_update U impl.

(** The value a group named [k] holds after the updates [U], when it
    held [d] before. *)
Definition final (U : list (string * V)) (k : string) (d : V) : V :=
  fold_left (fun acc u => if String.eqb (fst u) k then snd u else acc) U d.

Definition finalize (U : list (string * V)) (kv : string * Element V)
  : string * Element V :=
  (fst kv,
   {| serializable := serializable (snd kv);
      item := final U (fst kv) (item (snd kv)) |}).

Lemma apply_updates_app (U0 U1 : list (string * V)) impl :
  apply_updates (U0 ++ U1) impl = apply_updates U1 (apply_updates U0 impl).
Proof. unfold apply_updates. apply fold_left_app. Qed.

Lemma handlers_apply_updates (U : list (string * V)) :
  forall impl,
    handlers (elements_ (apply_updates U impl)) = handlers (elements_ impl).
Proof.
  induction U as [|u U IH]; intros impl; [reflexivity|].
  cbn [apply_updates fold_left]. fold (apply_updates U).
  rewrite IH. unfold apply_update. cbn [emit elements_].
  apply handlers_set_item.
Qed.

Lemma trace_apply_updates (U : list (string * V)) :
  forall impl,
    trace (apply_updates U impl)
    = trace impl ++ map HandlerReadBinary (map fst U).
Proof.
  induction U as [|u U IH]; intros impl.
  - symmetry. apply app_nil_r.
  - cbn [apply_updates fold_left]. fold (apply_updates U).
    rewrite IH. unfold apply_update.
    cbn [emit trace set_item set_elements map].
    rewrite <- app_assoc. reflexivity.
Qed.

Lemma find_same_handlers (name : string) m1 m2 :
  handlers m2 = handlers m1 ->
  option_map serializable (PoolMap.find name m2)
  = option_map serializable (PoolMap.find name m1).
Proof. intros H. rewrite <- !find_handlers, H. reflexivity. Qed.

Lemma dispatch_as_updates (name : string) (crc len : Z)
    (s4 : BufferReadStream.t) impl :
  value_independent (handlers (elements_ impl)) ->
  exists s1 U,
    forall impl2,
      handlers (elements_ impl2) = handlers (elements_ impl) ->
      dispatch_record CalculateCrc name crc len s4 impl2
      = (s1, apply_updates U impl2).
Proof.
  intros Hvi. unfold dispatch_record.
  destruct (PoolMap.find name (elements_ impl)) as [e|] eqn:Ef.
  - destruct (negb (CalculateSchemaCrc CalculateCrc (serializable e) =? crc))
      eqn:Ec.
    + exists (BufferReadStream.ignore len s4), []. intros impl2 Hh.
      pose proof (find_same_handlers name _ _ Hh) as Hf. rewrite Ef in Hf.
      destruct (PoolMap.find name (elements_ impl2)) as [e2|];
        [|discriminate].
      cbn [option_map] in Hf. injection Hf as Hf. rewrite Hf, Ec.
      reflexivity.
    + destruct (Handler.ReadBinary (serializable e) (item e) s4)
        as [[v n] r] eqn:Er.
      exists (skipn n s4), [(name, v)]. intros impl2 Hh.
      pose proof (find_same_handlers name _ _ Hh) as Hf. rewrite Ef in Hf.
      destruct (PoolMap.find name (elements_ impl2)) as [e2|];
        [|discriminate].
      cbn [option_map] in Hf. injection Hf as Hf. rewrite Hf, Ec.
      assert (Hin : In (name, serializable e) (handlers (elements_ impl))).
      { apply PoolMap.find_In. rewrite find_handlers, Ef. reflexivity. }
      rewrite (Hvi name (serializable e) Hin (item e2) (item e) s4), Er.
      reflexivity.
  - exists (BufferReadStream.ignore len s4), []. intros impl2 Hh.
    pose proof (find_same_handlers name _ _ Hh) as Hf. rewrite Ef in Hf.
    destruct (PoolMap.find name (elements_ impl2)) as [e2|];
      [discriminate | reflexivity].
Qed.

Lemma scan_as_updates (fuel : nat) :
  forall (s : BufferReadStream.t) impl s' impl',
    value_independent (handlers (elements_ impl)) ->
    DoLoad_loop CalculateCrc kMaxStringSize fuel (s, impl)
    = Some (s', impl') ->
    exists U,
      forall impl2,
        handlers (elements_ impl2) = handlers (elements_ impl) ->
        DoLoad_loop CalculateCrc kMaxStringSize fuel (s, impl2)
        = Some (s', apply_updates U impl2).
Proof.
  induction fuel as [|fuel IH]; intros s impl s' impl' Hvi E;
    [discriminate|].
  cbn [DoLoad_loop] in E.
  destruct (decode_header kMaxStringSize s)
    as [[[[name crc] len] s4]|] eqn:Eh.
  - rewrite (DoLoad_body_Continue _ _ _ _ _ _ _ _ Eh) in E.
    destruct (dispatch_as_updates name crc len s4 impl Hvi)
      as (s1 & U0 & Hd).
    rewrite (Hd impl eq_refl) in E.
    destruct (IH s1 (apply_updates U0 impl) s' impl') as [U1 H1];
      [rewrite handlers_apply_updates; exact Hvi | exact E |].
    exists (U0 ++ U1). intros impl2 Hh.
    cbn [DoLoad_loop].
    rewrite (DoLoad_body_Continue _ _ _ _ _ _ _ _ Eh), (Hd impl2 Hh).
    rewrite apply_updates_app.
    apply H1. rewrite !handlers_apply_updates. exact Hh.
  - destruct (DoLoad_body_stops s Eh) as (s1 & _ & Hb).
    rewrite Hb in E. inversion E; subst.
    exists []. intros impl2 _. cbn [DoLoad_loop]. rewrite Hb. reflexivity.
Qed.

Lemma update_as_map (key : string) (f : Element V -> Element V) m :
  NoDup (PoolMap.keys m) ->
  PoolMap.update key f m
  = map (fun kv => if String.eqb (fst kv) key then (fst kv, f (snd kv))
                   else kv) m.
Proof.
  induction m as [|[k e] m IH]; intros Hnd; [reflexivity|].
  cbn [PoolMap.keys map fst] in Hnd. inversion Hnd as [|? ? Hfresh Hnd'].
  subst. cbn [PoolMap.update map fst snd].
  destruct (String.eqb_spec k key) as [->|Hne].
  - f_equal. transitivity (map (fun kv : string * Element V => kv) m);
      [symmetry; apply map_id|].
    apply map_ext_in. intros [k' e'] Hin. cbn [fst snd].
    destruct (String.eqb_spec k' key) as [->|]; [|reflexivity].
    exfalso. apply Hfresh. apply (in_map fst) in Hin. exact Hin.
  - f_equal. apply IH. exact Hnd'.
Qed.

Lemma elements_apply_updates (U : list (string * V)) :
  forall impl,
    NoDup (PoolMap.keys (elements_ impl)) ->
    elements_ (apply_updates U impl) = map (finalize U) (elements_ impl).
Proof.
  induction U as [|u U IH]; intros impl Hnd.
  - cbn [apply_updates fold_left].
    transitivity (map (fun kv : string * Element V => kv) (elements_ impl));
      [symmetry; apply map_id|].
    apply map_ext. intros [k [h v]]. reflexivity.
  - cbn [apply_updates fold_left]. fold (apply_updates U).
    rewrite IH.
    + unfold apply_update. cbn [emit set_item set_elements elements_].
      rewrite (update_as_map _ _ _ Hnd), map_map. apply map_ext.
      intros [k [h v]]. cbn [fst snd]. unfold finalize, final.
      cbn [fold_left fst snd serializable item].
      rewrite (String.eqb_sym (fst u) k).
      destruct (String.eqb k (fst u)); reflexivity.
    + unfold apply_update. cbn [emit set_item set_elements elements_].
      rewrite PoolMap.keys_update. exact Hnd.
Qed.

Lemma final_twice (U : list (string * V)) (k : string) (d : V) :
  final U k (final U k d) = final U k d.
Proof.
  induction U as [|u U IH] using rev_ind; [reflexivity|].
  unfold final in *. rewrite !fold_left_app. cbn [fold_left].
  destruct (String.eqb (fst u) k); [reflexivity | exact IH].
Qed.

(** X24.  Loading twice is loading once: when the registered names are
    distinct and no handler's [ReadBinary] result depends on the value
    held before, a second [DoLoad] over the same region leaves every
    group with the value the first one gave it, and makes the same
    handler and update calls again. *)
Theorem DoLoad_twice (info : list byte) impl impl1 :
  NoDup (PoolMap.keys (elements_ impl)) ->
  value_independent (handlers (elements_ impl)) ->
  DoLoad CalculateCrc kMaxStringSize info impl = Some impl1 ->
  exists impl2 calls,
    DoLoad CalculateCrc kMaxStringSize info impl1 = Some impl2
    /\ elements_ impl2 = elements_ impl1
    /\ trace impl1 = trace impl ++ calls
    /\ trace impl2 = trace impl1 ++ calls.
Proof.
  intros Hnd Hvi. unfold DoLoad, DoLoad_scan.
  destruct (DoLoad_loop _ _ _ (info, impl)) as [[stop impl_s]|] eqn:Es;
    [|discriminate].
  intros [= <-].
  destruct (scan_as_updates _ _ _ _ _ Hvi Es) as [U HU].
  pose proof (eq_trans (eq_sym Es) (HU impl eq_refl)) as E1.
  injection E1 as E1. subst impl_s.
  assert (Hh : handlers (elements_ (notify_all (apply_updates U impl)))
               = handlers (elements_ impl)).
  { rewrite notify_all_elements. apply handlers_apply_updates. }
  pose proof (HU _ Hh) as E2. unfold BufferReadStream.t in *. rewrite E2.
  exists (notify_all (apply_updates U (notify_all (apply_updates U impl)))),
    (map HandlerReadBinary (map fst U)
     ++ map Updated (PoolMap.keys (elements_ impl))).
  assert (Hk : forall i : Impl V,
             handlers (elements_ i) = handlers (elements_ impl) ->
             PoolMap.keys (elements_ i) = PoolMap.keys (elements_ impl)).
  { intros i Hi. rewrite <- !handlers_keys, Hi. reflexivity. }
  split; [reflexivity|]. split; [|split].
  - rewrite !notify_all_elements.
    rewrite elements_apply_updates.
    2:{ rewrite notify_all_elements, (Hk _ (handlers_apply_updates U impl)).
        exact Hnd. }
    rewrite notify_all_elements, (elements_apply_updates U impl Hnd).
    rewrite map_map. apply map_ext. intros [k [h v]].
    unfold finalize. cbn [fst snd serializable item].
    rewrite final_twice. reflexivity.
  - rewrite notify_all_trace, trace_apply_updates,
      (Hk _ (handlers_apply_updates U impl)), <- app_assoc.
    reflexivity.
  - rewrite notify_all_trace, trace_apply_updates.
    rewrite (Hk (apply_updates U (notify_all (apply_updates U impl)))).
    2:{ rewrite handlers_apply_updates. exact Hh. }
    rewrite <- app_assoc. reflexivity.
Qed.

End Engine.

(** ** The engine theorems at small configurations *)

Module MoreExamples.

Import Example.

(** A group holding one byte whose [ReadBinary] never looks at the value
    held before: it stores the byte it reads, or zero when the stream is
    at its end. *)
Definition strict_handler (schema : list byte) : Handler.t byte :=
  {| Handler.Enumerate := fun _ _ => 0;
     Handler.Read := fun _ _ => (0, Some 0);
     Handler.Set_ := fun v _ _ => (v, 1);
     Handler.WriteBinary := fun v => [[v]];
     Handler.ReadBinary := fun _ s =>
       match s with
       | b :: _ => (b, 1%nat, 0)
       | [] => (x00, 0%nat, 1)
       end;
     Handler.WriteSchema := [schema];
     Handler.SetDefault := fun _ => x00 |}.

Definition strict_groups : Impl byte :=
  engine [("a"%string, {| serializable := strict_handler [x01]; item := x05 |});
          ("b"%string, {| serializable := strict_handler [x02]; item := x06 |})].

Definition loaded_once : Impl byte :=
  match DoLoad checksum max_string two_groups_image strict_groups with
  | Some impl1 => impl1
  | None => strict_groups
  end.

Lemma strict_groups_value_independent :
  value_independent (handlers (elements_ strict_groups)).
Proof.
  intros name h [E|[E|[]]] v v' s; inversion E; subst; reflexivity.
Qed.

Lemma strict_groups_NoDup : NoDup (PoolMap.keys (elements_ strict_groups)).
Proof.
  constructor; [cbn; intros [H|[]]; discriminate|].
  constructor; [cbn; tauto | constructor].
Qed.

Lemma other_commands_change_no_value_witness :
  elements_ (Get "a.x" 1%nat two_groups) = elements_ two_groups
  /\ updates (trace (Get "a.x" 1%nat two_groups))
     = updates (trace two_groups).
Proof.
  apply (other_commands_change_no_value checksum max_string [] "get a.x"
           1%nat two_groups (Get "a.x" 1%nat two_groups));
    try discriminate; reflexivity.
Defined.

Lemma commands_keep_the_registry_witness :
  handlers (elements_ (Set_ "a.x 5" 1%nat two_groups))
  = handlers (elements_ two_groups).
Proof.
  apply (commands_keep_the_registry checksum max_string [] "set a.x 5"
           1%nat two_groups (Set_ "a.x 5" 1%nat two_groups)).
  reflexivity.
Defined.

Lemma set_touches_one_group_witness :
  PoolMap.find "b" (elements_ (Set_ "a.x 5" 1%nat two_groups))
  = PoolMap.find "b" (elements_ two_groups).
Proof.
  apply (set_touches_one_group checksum max_string [] "set a.x 5" 1%nat
           two_groups (Set_ "a.x 5" 1%nat two_groups) "b");
    [reflexivity | discriminate | reflexivity].
Defined.

Lemma DoLoad_twice_witness :
  exists impl2 calls,
    DoLoad checksum max_string two_groups_image loaded_once = Some impl2
    /\ elements_ impl2 = elements_ loaded_once
    /\ trace loaded_once = trace strict_groups ++ calls
    /\ trace impl2 = trace loaded_once ++ calls.
Proof.
  apply (DoLoad_twice checksum max_string two_groups_image strict_groups
           loaded_once).
  - exact strict_groups_NoDup.
  - exact strict_groups_value_independent.
  - vm_compute. reflexivity.
Defined.

End MoreExamples.
